(** * The command machine of the debug bridge ([src/bridge-commands.cpp])

    [BridgeCommands] sequences a program of steps (run a callback, wait,
    repeat a block, wait for an exit signal) on a timer of the event loop.
    The commands are objects held through [std::shared_ptr]: the same
    object can sit in a queue and on the command stack at once, so the
    embedding keeps an explicit store of objects and passes addresses
    around, as the code passes pointers.  The store only grows: an object
    nothing points to any more stays in it, out of reach.

    The event loop and the lifecycle collaborator are outside this file;
    they are modelled from their interface.  The callbacks of the program
    act on the outside world and do not call back into the orchestrator,
    so [stop_bridge], which only asks the running loop to stop, has no
    caller here and is left out. *)

From Stdlib Require Import ZArith Lia String.
From stdpp Require Import base list.

(** ** Machine integers *)

(** [int] is a 32-bit signed integer; [m_repeat_times--] is the only
    arithmetic done on one, and it is written with its wrap-around. *)
Definition int_wrap (z : Z) : Z := ((z + 2 ^ 31) mod 2 ^ 32 - 2 ^ 31)%Z.

(** An address in the store of shared objects. *)
Abbreviation loc := nat (only parsing).

(** A handle on the lifecycle collaborator ([std::shared_ptr<Ioloop>]). *)
Abbreviation Ioloop := nat (only parsing).

(** The two lines [BridgeCommandExecute::execute] prints. *)
Inductive printf_line :=
| before_execute
| after_execute (ret : Z).

Inductive exn := BridgeUnmatchedLoopException.

Section Model.

(** What the callbacks act on.  A callback gets the orchestrator only as
    an opaque [void *]; here it acts on the outside world and returns its
    [int]. It does not re-enter the orchestrator. *)
Context {World : Type}.

(** [kEventLoopTimerDone] is declared with the event loop, outside
    [bridge-commands.cpp]; the model takes it as a parameter. *)
Variable kEventLoopTimerDone : Z.

Definition bridge_func_t := World -> Z * World.

(** The classes derived from [BridgeCommand].  [BridgeCommandRepeat]
    derives from [BridgeCommandCollection] and inherits its queue. *)
Inductive BridgeCommand :=
| BridgeCommandExecute (m_cb : bridge_func_t)
| BridgeCommandDelay (m_usecs : Z)
| BridgeCommandCollection (m_command_queue : list loc)
| BridgeCommandRepeat (m_command_queue : list loc) (m_delay : Z) (m_repeat_times : Z)
| BridgeCommandWaitExit (m_ioloop : Ioloop).

(** The orchestrator, with the objects it shares ([heap]), the one-shot
    exit callbacks registered by [BridgeCommandWaitExit::execute] and not
    fired yet ([on_exit]), the clock of the event loop and what was
    printed. The head of [m_command_stack] is its top. *)
Record BridgeCommands := mkBridgeCommands {
  heap : list BridgeCommand;
  m_command_stack : list loc;
  m_return_value : Z;
  on_exit : list Ioloop;
  world : World;
  clock : Z;
  stdout : list printf_line
}.

Definition set_heap (h : list BridgeCommand) (bc : BridgeCommands) :=
  mkBridgeCommands h (m_command_stack bc) (m_return_value bc) (on_exit bc)
                   (world bc) (clock bc) (stdout bc).
Definition set_stack (s : list loc) (bc : BridgeCommands) :=
  mkBridgeCommands (heap bc) s (m_return_value bc) (on_exit bc)
                   (world bc) (clock bc) (stdout bc).
Definition set_return_value (r : Z) (bc : BridgeCommands) :=
  mkBridgeCommands (heap bc) (m_command_stack bc) r (on_exit bc)
                   (world bc) (clock bc) (stdout bc).
Definition set_on_exit (e : list Ioloop) (bc : BridgeCommands) :=
  mkBridgeCommands (heap bc) (m_command_stack bc) (m_return_value bc) e
                   (world bc) (clock bc) (stdout bc).
Definition set_world (w : World) (bc : BridgeCommands) :=
  mkBridgeCommands (heap bc) (m_command_stack bc) (m_return_value bc) (on_exit bc)
                   w (clock bc) (stdout bc).
Definition set_clock (t : Z) (bc : BridgeCommands) :=
  mkBridgeCommands (heap bc) (m_command_stack bc) (m_return_value bc) (on_exit bc)
                   (world bc) t (stdout bc).
Definition printf (l : printf_line) (bc : BridgeCommands) :=
  mkBridgeCommands (heap bc) (m_command_stack bc) (m_return_value bc) (on_exit bc)
                   (world bc) (clock bc) (stdout bc ++ [l]).

(** ** Outcomes of a member function

    A call returns a value and the new orchestrator, throws with the
    orchestrator as it is at the throw, has no defined behaviour (a
    dangling address, [top] or [pop] of an empty stack), or was given too
    little fuel by the model. *)
Inductive result (A : Type) :=
| Ok (a : A) (bc : BridgeCommands)
| Throw (e : exn) (bc : BridgeCommands)
| Undefined
| OutOfFuel.
Arguments Ok {A} a bc.
Arguments Throw {A} e bc.
Arguments Undefined {A}.
Arguments OutOfFuel {A}.

Definition M (A : Type) := BridgeCommands -> result A.

Definition ret {A} (a : A) : M A := fun bc => Ok a bc.

Definition bind {A B} (m : M A) (k : A -> M B) : M B := fun bc =>
  match m bc with
  | Ok a bc' => k a bc'
  | Throw e bc' => Throw e bc'
  | Undefined => Undefined
  | OutOfFuel => OutOfFuel
  end.

Definition throw {A} (e : exn) : M A := fun bc => Throw e bc.

Definition get_return_value : M Z := fun bc => Ok (m_return_value bc) bc.

Local Notation "x <- m ;; k" := (bind m (fun x => k))
  (at level 62, m at next level, right associativity).
Local Notation "m ;;; k" := (bind m (fun _ => k))
  (at level 62, right associativity).

(** ** The store and the stack *)

(** [std::make_shared]: a new object at an address nothing holds yet. *)
Definition make_shared (o : BridgeCommand) : M loc := fun bc =>
  Ok (length (heap bc)) (set_heap (heap bc ++ [o]) bc).

Definition stack_top : M loc := fun bc =>
  match m_command_stack bc with
  | [] => Undefined
  | l :: _ => Ok l bc
  end.

Definition stack_pop : M unit := fun bc =>
  match m_command_stack bc with
  | [] => Undefined
  | _ :: s => Ok tt (set_stack s bc)
  end.

Definition stack_push (l : loc) : M unit := fun bc =>
  Ok tt (set_stack (l :: m_command_stack bc) bc).

(** [BridgeCommandCollection::add_command] pushes at the back of the
    [std::queue] of the collection (or of the repeat, which inherits it). *)
Definition add_command (this command : loc) : M unit := fun bc =>
  match heap bc !! this with
  | Some (BridgeCommandCollection q) =>
      Ok tt (set_heap (<[this := BridgeCommandCollection (q ++ [command])]> (heap bc)) bc)
  | Some (BridgeCommandRepeat q d n) =>
      Ok tt (set_heap (<[this := BridgeCommandRepeat (q ++ [command]) d n]> (heap bc)) bc)
  | _ => Undefined
  end.

(** ** Command execution *)

(** The result of [execute] is an [int64_t]: a delay in microseconds
    after which the timer fires again, or [kEventLoopTimerDone]. *)
Definition ContinueAfter (d : Z) : Z := d.
Definition Halt : Z := kEventLoopTimerDone.

Definition BridgeCommandExecute_execute (m_cb : bridge_func_t) : M Z := fun bc =>
  let bc := printf before_execute bc in
  let (r, w) := m_cb (world bc) in
  let bc := set_return_value r (set_world w bc) in
  let bc := printf (after_execute (m_return_value bc)) bc in
  Ok (if (m_return_value bc =? 0)%Z then kEventLoopTimerDone else 0%Z) bc.

(** Modelled from the spec: [BridgeCommandDelay::execute] is defined in
    the header; the step has no side effect and returns its duration. *)
Definition BridgeCommandDelay_execute (m_usecs : Z) : M Z := ret m_usecs.

Definition BridgeCommandRepeat_execute
    (this : loc) (q : list loc) (m_delay m_repeat_times : Z) : M Z := fun bc =>
  let bc := set_heap (<[this := BridgeCommandRepeat q m_delay
                                   (int_wrap (m_repeat_times - 1))]> (heap bc)) bc in
  ((if (m_repeat_times <=? 0)%Z then stack_pop
    else (c <- make_shared (BridgeCommandCollection q);; stack_push c));;;
   ret m_delay) bc.

Definition BridgeCommandWaitExit_execute (m_ioloop : Ioloop) : M Z := fun bc =>
  Ok kEventLoopTimerDone (set_on_exit (on_exit bc ++ [m_ioloop]) bc).

(** Virtual dispatch on the object at [this].  Only a collection calls
    [execute] again, on the command it has just taken off its queue. *)
Fixpoint execute_rec (fuel : nat) (this : loc) : M Z := fun bc =>
  match fuel with
  | O => OutOfFuel
  | S fuel =>
      match heap bc !! this with
      | None => Undefined
      | Some (BridgeCommandExecute m_cb) => BridgeCommandExecute_execute m_cb bc
      | Some (BridgeCommandDelay m_usecs) => BridgeCommandDelay_execute m_usecs bc
      | Some (BridgeCommandCollection q) =>
          match q with
          | [] => (stack_pop;;; ret 0%Z) bc
          | command :: q' =>
              execute_rec fuel command
                (set_heap (<[this := BridgeCommandCollection q']> (heap bc)) bc)
          end
      | Some (BridgeCommandRepeat q d n) => BridgeCommandRepeat_execute this q d n bc
      | Some (BridgeCommandWaitExit io) => BridgeCommandWaitExit_execute io bc
      end
  end.

(** Every nested call has taken one command off the queue of a
    collection, so the commands pending in collections bound the depth. *)
Definition queued (o : BridgeCommand) : nat :=
  match o with
  | BridgeCommandCollection q => length q
  | _ => 0
  end.

Definition pending (h : list BridgeCommand) : nat := sum_list_with queued h.

Definition execute (this : loc) : M Z := fun bc =>
  execute_rec (S (pending (heap bc))) this bc.

(** ** The scheduler *)

(** The lambda [queue_next_command] hands to the timer. *)
Definition timer_callback : M Z := fun bc =>
  match m_command_stack bc with
  | [] => Ok kEventLoopTimerDone bc
  | bridge_command_collection :: _ => execute bridge_command_collection bc
  end.

(** Modelled from the spec: the event loop ([getTimerEvent], [start]) is
    an external collaborator. It "registers a timer callback with an
    initial delay; callback may return either a new delay (re-arm) or a
    halt signal (unregister)", and [start] "blocks until no timers are
    armed". [fuel] bounds the number of times the timer fires. *)
Fixpoint EventLoop_start (callback : M Z) (fuel : nat) (delay : Z) : M unit := fun bc =>
  match fuel with
  | O => OutOfFuel
  | S fuel =>
      match callback (set_clock (clock bc + Z.max 0 delay) bc) with
      | Ok r bc' =>
          if (r =? kEventLoopTimerDone)%Z then Ok tt bc'
          else EventLoop_start callback fuel r bc'
      | Throw e bc' => Throw e bc'
      | Undefined => Undefined
      | OutOfFuel => OutOfFuel
      end
  end.

Definition queue_next_command (fuel : nat) : M unit :=
  EventLoop_start timer_callback fuel 0.

(** Modelled from the spec: the lifecycle collaborator ([Ioloop]) is
    external: "register a one-shot on-exit callback receiving a status
    code; fired at most once per registration". The callbacks registered
    on it are the lambdas of [BridgeCommandWaitExit::execute], which call
    [queue_next_command]. *)
Fixpoint fire_on_exit (fuel : nat) (registered : nat) : M unit :=
  match registered with
  | O => ret tt
  | S registered => queue_next_command fuel;;; fire_on_exit fuel registered
  end.

Definition Ioloop_exit (fuel : nat) (io : Ioloop) : M unit := fun bc =>
  fire_on_exit fuel (length (filter (fun r => r = io) (on_exit bc)))
    (set_on_exit (filter (fun r => r <> io) (on_exit bc)) bc).

(** ** Building the program and running it *)

(** Modelled from the spec: the constructor is in the header; "the root
    Collection is created once at orchestrator construction". *)
Definition BridgeCommands_new (return_value : Z) (w : World) : BridgeCommands :=
  mkBridgeCommands [BridgeCommandCollection []] [0] return_value [] w 0 [].

Definition start_bridge (fuel : nat) : M Z := fun bc =>
  if negb (length (m_command_stack bc) =? 1) then throw BridgeUnmatchedLoopException bc
  else (queue_next_command fuel;;; get_return_value) bc.

Definition add_execute (cb : bridge_func_t) : M unit :=
  t <- stack_top;; c <- make_shared (BridgeCommandExecute cb);; add_command t c.

Definition add_repeat_start (delay : Z) (count : Z) : M unit :=
  cloop <- make_shared (BridgeCommandRepeat [] delay count);;
  t <- stack_top;;
  add_command t cloop;;;
  stack_push cloop.

Definition add_repeat_end : M unit := fun bc =>
  if length (m_command_stack bc) <=? 1 then throw BridgeUnmatchedLoopException bc
  else stack_pop bc.

Definition add_delay (usecs : Z) : M unit :=
  t <- stack_top;; c <- make_shared (BridgeCommandDelay usecs);; add_command t c.

Definition add_wait_exit (ioloop : Ioloop) : M unit :=
  t <- stack_top;; c <- make_shared (BridgeCommandWaitExit ioloop);; add_command t c.

End Model.

Arguments Ok {World A} a bc.
Arguments Throw {World A} e bc.
Arguments Undefined {World A}.
Arguments OutOfFuel {World A}.

Notation "x <- m ;; k" := (bind m (fun x => k))
  (at level 62, m at next level, right associativity).
Notation "m ;;; k" := (bind m (fun _ => k))
  (at level 62, right associativity).

(** ** Programs and what happens to an orchestrator *)

Section Programs.

Context {World : Type}.
Variable kEventLoopTimerDone : Z.

(** The calls of the builder interface. *)
Inductive call :=
| AddExecute (cb : @bridge_func_t World)
| AddRepeatStart (delay count : Z)
| AddRepeatEnd
| AddDelay (usecs : Z)
| AddWaitExit (ioloop : Ioloop).

Definition do_call (c : call) : M unit :=
  match c with
  | AddExecute cb => add_execute cb
  | AddRepeatStart delay count => add_repeat_start delay count
  | AddRepeatEnd => add_repeat_end
  | AddDelay usecs => add_delay usecs
  | AddWaitExit ioloop => add_wait_exit ioloop
  end.

Fixpoint author (cs : list call) : M unit :=
  match cs with
  | [] => ret tt
  | c :: cs => do_call c;;; author cs
  end.

(** Everything that acts on an orchestrator: a call of the builder, the
    timer firing once, [start_bridge], and the exit signal of a lifecycle
    collaborator. *)
Inductive event :=
| Calls (c : call)
| TimerFires
| Starts (fuel : nat)
| Exits (fuel : nat) (ioloop : Ioloop).

Definition happen (e : event) : M unit :=
  match e with
  | Calls c => do_call c
  | TimerFires => timer_callback kEventLoopTimerDone;;; ret tt
  | Starts fuel => start_bridge kEventLoopTimerDone fuel;;; ret tt
  | Exits fuel ioloop => Ioloop_exit kEventLoopTimerDone fuel ioloop
  end.

(** The events happen one after the other; whoever calls [start_bridge]
    or [add_repeat_end] catches the exception and goes on. *)
Fixpoint happens (es : list event) : M unit := fun bc =>
  match es with
  | [] => Ok tt bc
  | e :: es =>
      match happen e bc with
      | Ok _ bc' | Throw _ bc' => happens es bc'
      | Undefined => Undefined
      | OutOfFuel => OutOfFuel
      end
  end.

(** [P] holds of the orchestrator a call leaves, returning or throwing. *)
Definition after {A} (r : result A) (P : @BridgeCommands World -> Prop) : Prop :=
  match r with
  | Ok _ bc' | Throw _ bc' => P bc'
  | Undefined | OutOfFuel => True
  end.

(** The repeat at [l] has its block closed: it holds the queue [q] and
    the delay [d], and the stack of the builder does not hold it. *)
Definition closed_frame (l : loc) (q : list loc) (d : Z) (bc : @BridgeCommands World) : Prop :=
  (exists n, heap bc !! l = Some (BridgeCommandRepeat q d n))
  /\ l ∉ m_command_stack bc.

(** ** The commands of a frame as values

    The specification speaks of the body of a repeat as a sequence of
    command nodes.  [node_at] reads the node an address stands for out of
    the store, with the nodes below it, down to [depth] levels. *)
#[local] Unset Elimination Schemes.
Inductive node :=
| ExecuteStep
| DelayStep (duration : Z)
| Collection (pending : list node)
| RepeatFrame (remainingIterations perIterationDelay : Z) (bodyCommands : list node)
| WaitExitStep (lifecycleHandle : Ioloop)
| Elided.
#[local] Set Elimination Schemes.

Fixpoint node_at (depth : nat) (h : list (@BridgeCommand World)) (l : loc) : node :=
  match depth with
  | O => Elided
  | S depth =>
      match h !! l with
      | Some (BridgeCommandExecute _) => ExecuteStep
      | Some (BridgeCommandDelay usecs) => DelayStep usecs
      | Some (BridgeCommandCollection q) => Collection (node_at depth h <$> q)
      | Some (BridgeCommandRepeat q d n) => RepeatFrame n d (node_at depth h <$> q)
      | Some (BridgeCommandWaitExit io) => WaitExitStep io
      | None => Elided
      end
  end.

Definition body_of (depth : nat) (h : list (@BridgeCommand World)) (l : loc) : list node :=
  match h !! l with
  | Some (BridgeCommandRepeat q _ _) => node_at depth h <$> q
  | _ => []
  end.

(** ** Well-formed stores and the number of ticks left *)

Definition is_collection (o : option (@BridgeCommand World)) : Prop :=
  match o with
  | Some (BridgeCommandCollection _) => True
  | _ => False
  end.

Definition is_frame (o : option (@BridgeCommand World)) : Prop :=
  match o with
  | Some (BridgeCommandCollection _) | Some (BridgeCommandRepeat _ _ _) => True
  | _ => False
  end.

(** A queued command exists and is a step or a repeat, never a plain
    collection: the builder queues nothing else. *)
Definition is_step (o : option (@BridgeCommand World)) : Prop :=
  match o with
  | Some (BridgeCommandCollection _) | None => False
  | Some _ => True
  end.

(** The commands of a repeat were made after the repeat itself. *)
Definition wf_object (h : list (@BridgeCommand World)) (l : loc) (o : @BridgeCommand World) : Prop :=
  match o with
  | BridgeCommandCollection q => Forall (fun c => is_step (h !! c)) q
  | BridgeCommandRepeat q _ _ => Forall (fun c => l < c /\ is_step (h !! c)) q
  | _ => True
  end.

Definition wf_heap (h : list (@BridgeCommand World)) : Prop :=
  forall l o, h !! l = Some o -> wf_object h l o.

(** Ticks a queued command costs: one for a step; for a repeat, one for
    the repeat, those of its body and one to pop the collection of the
    iteration. *)
Fixpoint weight_rec (depth : nat) (h : list (@BridgeCommand World)) (l : loc) : nat :=
  match depth with
  | O => 1
  | S depth =>
      match h !! l with
      | Some (BridgeCommandRepeat q _ _) => 2 + sum_list_with (weight_rec depth h) q
      | _ => 1
      end
  end.

Definition weight (h : list (@BridgeCommand World)) (l : loc) : nat :=
  weight_rec (length h) h l.

Definition frame_weight (h : list (@BridgeCommand World)) (f : loc) : nat :=
  match h !! f with
  | Some (BridgeCommandCollection q) => 1 + sum_list_with (weight h) q
  | _ => 0
  end.

Definition ticks_left (bc : @BridgeCommands World) : nat :=
  sum_list_with (frame_weight (heap bc)) (m_command_stack bc).

(** What running the program keeps of the store: a step is never
    changed, a repeat keeps its queue and its delay, a collection stays a
    collection. *)
Definition extends (h h' : list (@BridgeCommand World)) : Prop :=
  forall l,
    match h !! l with
    | None => True
    | Some (BridgeCommandRepeat q d _) =>
        exists n', h' !! l = Some (BridgeCommandRepeat q d n')
    | Some (BridgeCommandCollection _) => is_collection (h' !! l)
    | Some o => h' !! l = Some o
    end.

(** While the program is built, the stack holds the root collection
    under the repeats that are still open. *)
Definition authoring (bc : @BridgeCommands World) : Prop :=
  wf_heap (heap bc)
  /\ Forall (fun f => is_frame (heap bc !! f)) (m_command_stack bc)
  /\ exists s root, m_command_stack bc = s ++ [root] /\ is_collection (heap bc !! root).

(** While it runs, the stack holds collections only, each once. *)
Definition running (bc : @BridgeCommands World) : Prop :=
  wf_heap (heap bc)
  /\ Forall (fun f => is_collection (heap bc !! f)) (m_command_stack bc)
  /\ NoDup (m_command_stack bc).

End Programs.

(** ** The programs the properties are tried on *)

Section Scenarios.

Open Scope string_scope.

(** A callback that leaves its name in the world and returns [r]. *)
Definition invoke (name : string) (r : Z) : @bridge_func_t (list string) :=
  fun w => (r, (w ++ [name])%list).

Definition built (cs : list (@call (list string))) : @BridgeCommands (list string) :=
  match author cs (BridgeCommands_new 0 []) with
  | Ok _ bc => bc
  | _ => BridgeCommands_new 0 []
  end.

(** [Execute(A), RepeatStart(1000, count){ Delay(500), Execute(B) }, Execute(C)] *)
Definition repeat_scenario (count : Z) : list (@call (list string)) :=
  [AddExecute (invoke "A" 1); AddRepeatStart 1000 count; AddDelay 500;
   AddExecute (invoke "B" 1); AddRepeatEnd; AddExecute (invoke "C" 1)].

(** [RepeatStart(7, 0){ Execute(B) }, Execute(C)] *)
Definition empty_repeat_scenario : list (@call (list string)) :=
  [AddRepeatStart 7 0; AddExecute (invoke "B" 1); AddRepeatEnd;
   AddExecute (invoke "C" 1)].

(** [WaitExit(io 5), Execute(C)] *)
Definition wait_exit_scenario : list (@call (list string)) :=
  [AddWaitExit 5; AddExecute (invoke "C" 1)].

(** [RepeatStart(0, 1){ RepeatStart(0, 1){ } }] *)
Definition nested_repeat_scenario : list (@call (list string)) :=
  [AddRepeatStart 0 1; AddRepeatStart 0 1; AddRepeatEnd; AddRepeatEnd].

(** [RepeatStart(0, 1){ RepeatStart(0, 0){ Execute(X) }, Execute(Y) }, Execute(Z)] *)
Definition skipped_body_scenario : list (@call (list string)) :=
  [AddRepeatStart 0 1; AddRepeatStart 0 0; AddExecute (invoke "X" 1); AddRepeatEnd;
   AddExecute (invoke "Y" 1); AddRepeatEnd; AddExecute (invoke "Z" 1)].

(** [Execute(A returns 0), Execute(C)] *)
Definition halting_scenario : list (@call (list string)) :=
  [AddExecute (invoke "A" 0); AddExecute (invoke "C" 1)].

(** A program that waits for the exit, and a repeat built and left open
    while the run is suspended: [WaitExit(5)], [start_bridge], then
    [RepeatStart(0, 2){ RepeatStart(0, 1){ Execute(X) } ], then the exit
    signal. *)
Definition open_repeat_events : list (@event (list string)) :=
  [Calls (AddWaitExit 5); Starts 1;
   Calls (AddRepeatStart 0 2); Calls (AddRepeatStart 0 1);
   Calls (AddExecute (invoke "X" 1)); Calls AddRepeatEnd;
   Exits 10 5].

(** The same with one repeat: [WaitExit(5)], [start_bridge], then
    [RepeatStart(0, 3){ Execute(B) ], then the exit signal. *)
Definition open_repeat_counts_events : list (@event (list string)) :=
  [Calls (AddWaitExit 5); Starts 1;
   Calls (AddRepeatStart 0 3); Calls (AddExecute (invoke "B" 1));
   Exits 13 5].

(** A repeat left open: [Execute(A), RepeatStart(10, 3){ Execute(B) ] *)
Definition unclosed_scenario : list (@call (list string)) :=
  [AddExecute (invoke "A" 1); AddRepeatStart 10 3; AddExecute (invoke "B" 1)].

End Scenarios.

(** ** What the builder makes of a sequence of calls *)

Section Built.

Context {World : Type}.

(** The queue a frame inherits from [BridgeCommandCollection]. *)
Definition queue_of (o : @BridgeCommand World) : list loc :=
  match o with
  | BridgeCommandCollection q | BridgeCommandRepeat q _ _ => q
  | _ => []
  end.

Definition with_queue (o : @BridgeCommand World) (q : list loc) : @BridgeCommand World :=
  match o with
  | BridgeCommandCollection _ => BridgeCommandCollection q
  | BridgeCommandRepeat _ d n => BridgeCommandRepeat q d n
  | _ => o
  end.

(** The object [add_execute], [add_delay] and [add_wait_exit] make. *)
Definition step_object (c : @call World) : option (@BridgeCommand World) :=
  match c with
  | AddExecute cb => Some (BridgeCommandExecute cb)
  | AddDelay usecs => Some (BridgeCommandDelay usecs)
  | AddWaitExit ioloop => Some (BridgeCommandWaitExit ioloop)
  | AddRepeatStart _ _ | AddRepeatEnd => None
  end.

(** The depth of the stack after the calls, from the depth before them;
    nothing when a call closes a repeat that is not open. *)
Fixpoint depth_after (cs : list (@call World)) (depth : nat) : option nat :=
  match cs with
  | [] => Some depth
  | AddRepeatStart _ _ :: cs => depth_after cs (S depth)
  | AddRepeatEnd :: cs => if (depth <=? 1)%nat then None else depth_after cs (pred depth)
  | _ :: cs => depth_after cs depth
  end.

(** The callbacks of a queue run in order, up to the first that returns
    zero: the value the last one returned and the world they leave. *)
Fixpoint invoke_all (cbs : list (@bridge_func_t World)) (r : Z) (w : World) : Z * World :=
  match cbs with
  | [] => (r, w)
  | cb :: cbs =>
      let (r', w') := cb w in
      if (r' =? 0)%Z then (r', w') else invoke_all cbs r' w'
  end.

Fixpoint zero_returned (cbs : list (@bridge_func_t World)) (w : World) : bool :=
  match cbs with
  | [] => false
  | cb :: cbs =>
      let (r', w') := cb w in
      if (r' =? 0)%Z then true else zero_returned cbs w'
  end.

(** The callbacks of a body run [n] times over. *)
Fixpoint invoke_times (n : nat) (cbs : list (@bridge_func_t World)) (r : Z) (w : World)
  : Z * World :=
  match n with
  | O => (r, w)
  | S n => let (r', w') := invoke_all cbs r w in invoke_times n cbs r' w'
  end.

Fixpoint zero_within (n : nat) (cbs : list (@bridge_func_t World)) (r : Z) (w : World)
  : bool :=
  match n with
  | O => false
  | S n => zero_returned cbs w
           || (let (r', w') := invoke_all cbs r w in zero_within n cbs r' w')
  end.

(** The fields no call of the builder touches. *)
Definition same_outcome (bc bc' : @BridgeCommands World) : Prop :=
  m_return_value bc' = m_return_value bc /\ world bc' = world bc
  /\ on_exit bc' = on_exit bc /\ clock bc' = clock bc /\ stdout bc' = stdout bc.

(** A step: an object that is neither a collection nor a repeat. *)
Definition is_leaf (o : @BridgeCommand World) : Prop :=
  match o with
  | BridgeCommandCollection _ | BridgeCommandRepeat _ _ _ => False
  | _ => True
  end.

(** An event of a run: no call of the builder, and a loop that is given
    more than [ticks] turns. *)
Definition runs_within (ticks : nat) (e : @event World) : Prop :=
  match e with
  | Calls _ => False
  | TimerFires => True
  | Starts fuel | Exits fuel _ => ticks < fuel
  end.

End Built.

(** ** More programs *)

Section MoreScenarios.

Open Scope string_scope.

(** [Execute(A), Delay(500), WaitExit(io 5)] *)
Definition steps_scenario : list (@call (list string)) :=
  [AddExecute (invoke "A" 1); AddDelay 500; AddWaitExit 5].


(** [RepeatStart(7, 2){ Execute(B)], the repeat still open. *)
Definition open_repeat_scenario : list (@call (list string)) :=
  [AddRepeatStart 7 2; AddExecute (invoke "B" 1)].

End MoreScenarios.

(** * Properties

    ** One advance of a command *)

Section Advance.
Context {World : Type}.
Variable kEventLoopTimerDone : Z.
Implicit Types (bc : @BridgeCommands World) (h : list (@BridgeCommand World)).

Lemma pending_insert h l o o' :
  h !! l = Some o -> pending (<[l := o']> h) + queued o = pending h + queued o'.
Proof.
  unfold pending. revert l. induction h as [|x h IH]; intros [|l] Hl; simplify_eq/=.
  - lia.
  - specialize (IH _ Hl). lia.
Qed.

(** More fuel than there are commands pending changes nothing: [execute]
    is total. *)
Lemma execute_rec_fuel fuel this bc :
  pending (heap bc) < fuel ->
  execute_rec kEventLoopTimerDone fuel this bc
  = execute_rec kEventLoopTimerDone (S (pending (heap bc))) this bc.
Proof.
  revert this bc. induction fuel as [|fuel IH]; intros this bc Hf; [lia|].
  simpl. destruct (heap bc !! this) as [[cb|us|[|c q]|q d n|io]|] eqn:Hl; try reflexivity.
  pose proof (pending_insert _ _ _ (BridgeCommandCollection q) Hl) as Hp. simpl in Hp.
  replace (pending (heap bc))
    with (S (pending (heap (set_heap (<[this := BridgeCommandCollection q]> (heap bc)) bc))))
    by (simpl; lia).
  apply IH. simpl. lia.
Qed.

Lemma execute_Collection_cons this c q bc :
  heap bc !! this = Some (BridgeCommandCollection (c :: q)) ->
  execute kEventLoopTimerDone this bc
  = execute kEventLoopTimerDone c
      (set_heap (<[this := BridgeCommandCollection q]> (heap bc)) bc).
Proof.
  intros Hl. unfold execute at 1. simpl. rewrite Hl.
  apply execute_rec_fuel.
  pose proof (pending_insert _ _ _ (BridgeCommandCollection q) Hl) as Hp. simpl in *. lia.
Qed.

Lemma execute_Collection_nil this bc :
  heap bc !! this = Some (BridgeCommandCollection []) ->
  execute kEventLoopTimerDone this bc = bind stack_pop (fun _ => ret 0%Z) bc.
Proof. intros Hl. unfold execute. simpl. by rewrite Hl. Qed.

Lemma execute_Execute this cb bc :
  heap bc !! this = Some (BridgeCommandExecute cb) ->
  execute kEventLoopTimerDone this bc = BridgeCommandExecute_execute kEventLoopTimerDone cb bc.
Proof. intros Hl. unfold execute. simpl. by rewrite Hl. Qed.

Lemma execute_Delay this us bc :
  heap bc !! this = Some (BridgeCommandDelay us) ->
  execute kEventLoopTimerDone this bc = BridgeCommandDelay_execute us bc.
Proof. intros Hl. unfold execute. simpl. by rewrite Hl. Qed.

Lemma execute_Repeat this q d n bc :
  heap bc !! this = Some (BridgeCommandRepeat q d n) ->
  execute kEventLoopTimerDone this bc = BridgeCommandRepeat_execute this q d n bc.
Proof. intros Hl. unfold execute. simpl. by rewrite Hl. Qed.

Lemma execute_WaitExit this io bc :
  heap bc !! this = Some (BridgeCommandWaitExit io) ->
  execute kEventLoopTimerDone this bc = BridgeCommandWaitExit_execute kEventLoopTimerDone io bc.
Proof. intros Hl. unfold execute. simpl. by rewrite Hl. Qed.

Lemma execute_dangling this bc :
  heap bc !! this = None -> execute kEventLoopTimerDone this bc = Undefined.
Proof. intros Hl. unfold execute. simpl. by rewrite Hl. Qed.

(** What [BridgeCommandRepeat::execute] does, whatever the top of the
    stack is: the counter is decremented, the top is popped or a new
    Collection with a copy of the queue is pushed, the delay is returned. *)
Lemma Repeat_advance this q d n top rest bc :
  heap bc !! this = Some (BridgeCommandRepeat q d n) ->
  m_command_stack bc = top :: rest ->
  execute kEventLoopTimerDone this bc
  = Ok (ContinueAfter d)
      (let h := <[this := BridgeCommandRepeat q d (int_wrap (n - 1))]> (heap bc) in
       if (n <=? 0)%Z then set_stack rest (set_heap h bc)
       else set_stack (length h :: top :: rest)
              (set_heap (h ++ [BridgeCommandCollection q]) bc)).
Proof.
  intros Hl Hs. rewrite (execute_Repeat _ _ _ _ _ Hl).
  unfold BridgeCommandRepeat_execute, bind. destruct (n <=? 0)%Z.
  - unfold stack_pop. simpl. rewrite Hs. reflexivity.
  - unfold make_shared, stack_push. simpl. rewrite Hs. reflexivity.
Qed.

Lemma Execute_advance this cb bc :
  heap bc !! this = Some (BridgeCommandExecute cb) ->
  execute kEventLoopTimerDone this bc
  = Ok (if ((cb (world bc)).1 =? 0)%Z then Halt kEventLoopTimerDone else ContinueAfter 0)
      (printf (after_execute (cb (world bc)).1)
         (set_return_value (cb (world bc)).1
            (set_world (cb (world bc)).2 (printf before_execute bc)))).
Proof.
  intros Hl. rewrite (execute_Execute _ _ _ Hl).
  unfold BridgeCommandExecute_execute. simpl. destruct (cb (world bc)) as [r w]. reflexivity.
Qed.

Lemma Collection_advance this q rest bc :
  heap bc !! this = Some (BridgeCommandCollection q) ->
  m_command_stack bc = this :: rest ->
  timer_callback kEventLoopTimerDone bc
  = match q with
    | [] => Ok (ContinueAfter 0) (set_stack rest bc)
    | command :: q' =>
        execute kEventLoopTimerDone command
          (set_heap (<[this := BridgeCommandCollection q']> (heap bc)) bc)
    end.
Proof.
  intros Hl Hs. unfold timer_callback. rewrite Hs. destruct q as [|c q].
  - rewrite (execute_Collection_nil _ _ Hl). unfold bind, stack_pop. by rewrite Hs.
  - by apply execute_Collection_cons.
Qed.

Lemma EventLoop_start_S callback fuel delay bc :
  EventLoop_start kEventLoopTimerDone callback (S fuel) delay bc
  = match callback (set_clock (clock bc + Z.max 0 delay) bc) with
    | Ok r bc' =>
        if (r =? kEventLoopTimerDone)%Z then Ok tt bc'
        else EventLoop_start kEventLoopTimerDone callback fuel r bc'
    | Throw e bc' => Throw e bc'
    | Undefined => Undefined
    | OutOfFuel => OutOfFuel
    end.
Proof. reflexivity. Qed.

Lemma WaitExit_advance this io bc :
  heap bc !! this = Some (BridgeCommandWaitExit io) ->
  execute kEventLoopTimerDone this bc
  = Ok (Halt kEventLoopTimerDone) (set_on_exit (on_exit bc ++ [io]) bc).
Proof. intros Hl. by rewrite (execute_WaitExit _ _ _ Hl). Qed.

End Advance.

(** ** A run of a built program comes to an end *)

Section Termination.
Context {World : Type}.
Variable kEventLoopTimerDone : Z.
Implicit Types (bc : @BridgeCommands World) (h : list (@BridgeCommand World)).
Implicit Types (o : @BridgeCommand World) (l c f : nat) (q : list nat).

Lemma sum_list_with_eq (f g : nat -> nat) q :
  Forall (fun c => f c = g c) q -> sum_list_with f q = sum_list_with g q.
Proof. induction 1; simpl; congruence. Qed.

Lemma is_step_lt h c : is_step (h !! c) -> c < length h.
Proof. destruct (h !! c) eqn:E; [|done]. intros _. by eapply lookup_lt_Some. Qed.

(** In a well-formed store the commands of a repeat have greater
    addresses than the repeat, so any depth that reaches the end of the
    store gives the same weight. *)
Lemma weight_rec_depth h :
  wf_heap h -> forall d1 d2 l,
  length h <= l + d1 -> length h <= l + d2 -> weight_rec d1 h l = weight_rec d2 h l.
Proof.
  intros Hwf. induction d1 as [|d1 IH]; intros d2 l H1 H2.
  - destruct d2; simpl; [done|]. rewrite lookup_ge_None_2 by lia. done.
  - destruct d2; simpl.
    { rewrite lookup_ge_None_2 by lia. done. }
    destruct (h !! l) as [[| | |q d n|]|] eqn:E; try done.
    do 2 f_equal. apply sum_list_with_eq.
    specialize (Hwf _ _ E). simpl in Hwf.
    eapply Forall_impl; [exact Hwf|]. intros c [Hc _]. simpl. apply IH; lia.
Qed.

Lemma weight_Repeat h c q d n :
  wf_heap h -> h !! c = Some (BridgeCommandRepeat q d n) ->
  weight h c = 2 + sum_list_with (weight h) q.
Proof.
  intros Hwf E. unfold weight. pose proof (lookup_lt_Some _ _ _ E) as Hlt.
  rewrite (weight_rec_depth h Hwf (length h) (S (length h)) c) by lia.
  simpl. by rewrite E.
Qed.

Lemma weight_step h c o :
  h !! c = Some o -> (forall q d n, o <> BridgeCommandRepeat q d n) -> weight h c = 1.
Proof.
  intros E Ho. unfold weight. destruct (length h); [done|]. simpl. rewrite E.
  destruct o; try done. by edestruct Ho.
Qed.

Lemma weight_pos h c : 1 <= weight h c.
Proof.
  unfold weight. destruct (length h); simpl; [lia|].
  destruct (h !! c) as [[]|]; lia.
Qed.

Lemma extends_length h h' : extends h h' -> length h <= length h'.
Proof.
  intros He. destruct (decide (length h <= length h')) as [|Hn]; [done|].
  assert (Hl : length h' < length h) by lia.
  apply lookup_lt_is_Some_2 in Hl as [o Ho]. specialize (He (length h')).
  rewrite Ho in He. rewrite (lookup_ge_None_2 h' (length h')) in He by lia.
  destruct o; try done. by destruct He.
Qed.

Lemma extends_is_step h h' c : extends h h' -> is_step (h !! c) -> is_step (h' !! c).
Proof.
  intros He. specialize (He c). destruct (h !! c) as [[]|]; try done.
  - by rewrite He.
  - by rewrite He.
  - by destruct He as [n' ->].
  - by rewrite He.
Qed.

Lemma weight_rec_extends h h' :
  wf_heap h -> extends h h' ->
  forall d l, l < length h -> weight_rec d h l = weight_rec d h' l.
Proof.
  intros Hwf He. induction d as [|d IH]; intros l Hl; [done|]. simpl.
  pose proof (He l) as Hel. destruct (h !! l) as [[| | |q dl n|]|] eqn:E.
  - by rewrite Hel.
  - by rewrite Hel.
  - destruct (h' !! l) as [[]|]; done.
  - destruct Hel as [n' ->]. do 2 f_equal. apply sum_list_with_eq.
    specialize (Hwf _ _ E). simpl in Hwf.
    eapply Forall_impl; [exact Hwf|]. intros c [_ Hc]. simpl.
    apply IH. by apply is_step_lt.
  - by rewrite Hel.
  - apply lookup_ge_None_1 in E. lia.
Qed.

Lemma weight_extends h h' l :
  wf_heap h -> extends h h' -> l < length h -> weight h l = weight h' l.
Proof.
  intros Hwf He Hl. unfold weight. pose proof (extends_length _ _ He).
  rewrite (weight_rec_depth h Hwf (length h) (length h') l) by lia.
  by apply weight_rec_extends.
Qed.

Lemma queue_weight_extends h h' q :
  wf_heap h -> extends h h' -> Forall (fun c => is_step (h !! c)) q ->
  sum_list_with (weight h) q = sum_list_with (weight h') q.
Proof.
  intros Hwf He Hq. apply sum_list_with_eq. eapply Forall_impl; [exact Hq|].
  intros c Hc. simpl. apply weight_extends; [done..|]. by apply is_step_lt.
Qed.


Lemma extends_refl h : extends h h.
Proof. intros l. destruct (h !! l) as [[]|]; simpl; eauto. Qed.

Lemma extends_trans h1 h2 h3 : extends h1 h2 -> extends h2 h3 -> extends h1 h3.
Proof.
  intros H12 H23 l. specialize (H12 l). specialize (H23 l).
  destruct (h1 !! l) as [[]|]; try done.
  - by rewrite H12 in H23.
  - by rewrite H12 in H23.
  - destruct (h2 !! l) as [[]|]; done.
  - destruct H12 as [n' E]. by rewrite E in H23.
  - by rewrite H12 in H23.
Qed.

Lemma extends_app h o : extends h (h ++ [o]).
Proof.
  intros l. destruct (h !! l) as [x|] eqn:E; [|done].
  rewrite lookup_app_l by (by eapply lookup_lt_Some). rewrite E.
  destruct x; simpl; eauto.
Qed.

Lemma extends_insert_Collection h l q q' :
  h !! l = Some (BridgeCommandCollection q) ->
  extends h (<[l := BridgeCommandCollection q']> h).
Proof.
  intros E x. destruct (decide (l = x)) as [<-|Hne].
  - rewrite E, list_lookup_insert_eq by (by eapply lookup_lt_Some). done.
  - rewrite list_lookup_insert_ne by done. apply extends_refl.
Qed.

Lemma extends_insert_Repeat h l q d n n' :
  h !! l = Some (BridgeCommandRepeat q d n) ->
  extends h (<[l := BridgeCommandRepeat q d n']> h).
Proof.
  intros E x. destruct (decide (l = x)) as [<-|Hne].
  - rewrite E, list_lookup_insert_eq by (by eapply lookup_lt_Some). eauto.
  - rewrite list_lookup_insert_ne by done. apply extends_refl.
Qed.

Lemma wf_object_mono h h' l o :
  (forall c, is_step (h !! c) -> is_step (h' !! c)) ->
  wf_object h l o -> wf_object h' l o.
Proof.
  intros Hm. destruct o; simpl; try done.
  - intros H. eapply Forall_impl; [exact H|]. simpl. auto.
  - intros H. eapply Forall_impl; [exact H|]. simpl. intros c [? ?]. auto.
Qed.

Lemma wf_heap_app h o :
  wf_heap h -> wf_object (h ++ [o]) (length h) o -> wf_heap (h ++ [o]).
Proof.
  intros Hwf Ho l x E. apply lookup_snoc_Some in E as [[Hl E]|[-> ->]]; [|done].
  apply (wf_object_mono h); [|by apply Hwf].
  intros c. apply extends_is_step, extends_app.
Qed.

Lemma wf_heap_insert h l o o' :
  wf_heap h -> h !! l = Some o ->
  (is_step (Some o) -> is_step (Some o')) ->
  wf_object (<[l := o']> h) l o' ->
  wf_heap (<[l := o']> h).
Proof.
  intros Hwf E Hk Ho x y Ex.
  assert (Hm : forall c, is_step (h !! c) -> is_step (<[l := o']> h !! c)).
  { intros c. destruct (decide (l = c)) as [<-|Hne].
    - rewrite E, list_lookup_insert_eq by (by eapply lookup_lt_Some). done.
    - by rewrite list_lookup_insert_ne. }
  destruct (decide (l = x)) as [<-|Hne].
  - rewrite list_lookup_insert_eq in Ex by (by eapply lookup_lt_Some). by simplify_eq.
  - rewrite list_lookup_insert_ne in Ex by done.
    apply (wf_object_mono h); [done|by apply Hwf].
Qed.


Lemma is_collection_Some h f :
  is_collection (h !! f) -> exists q, h !! f = Some (BridgeCommandCollection q).
Proof. destruct (h !! f) as [[]|]; try done. eauto. Qed.

Lemma extends_is_collection h h' f :
  extends h h' -> is_collection (h !! f) -> is_collection (h' !! f).
Proof. intros He. specialize (He f). by destruct (h !! f) as [[]|]. Qed.

Lemma frame_weight_extends h h' f :
  wf_heap h -> extends h h' -> is_collection (h !! f) -> h' !! f = h !! f ->
  frame_weight h f = frame_weight h' f.
Proof.
  intros Hwf He Hc Hf. unfold frame_weight. rewrite Hf.
  destruct (h !! f) as [[| |q| |]|] eqn:E; try done. f_equal.
  apply queue_weight_extends; [done..|]. exact (Hwf _ _ E).
Qed.

Lemma stack_weight_extends h h' s :
  wf_heap h -> extends h h' ->
  Forall (fun f => is_collection (h !! f) /\ h' !! f = h !! f) s ->
  sum_list_with (frame_weight h) s = sum_list_with (frame_weight h') s.
Proof.
  intros Hwf He Hs. apply sum_list_with_eq. eapply Forall_impl; [exact Hs|].
  intros f [? ?]. by apply frame_weight_extends.
Qed.

Lemma running_fields bc bc' :
  heap bc' = heap bc -> m_command_stack bc' = m_command_stack bc ->
  running bc -> running bc'.
Proof. unfold running. by intros -> ->. Qed.

Lemma ticks_left_fields bc bc' :
  heap bc' = heap bc -> m_command_stack bc' = m_command_stack bc ->
  ticks_left bc' = ticks_left bc.
Proof. unfold ticks_left. by intros -> ->. Qed.

Lemma running_dequeue bc top rest c q' :
  running bc -> m_command_stack bc = top :: rest ->
  heap bc !! top = Some (BridgeCommandCollection (c :: q')) ->
  let bc1 := set_heap (<[top := BridgeCommandCollection q']> (heap bc)) bc in
  running bc1 /\ ticks_left bc1 + weight (heap bc) c = ticks_left bc
  /\ extends (heap bc) (heap bc1) /\ heap bc1 !! c = heap bc !! c
  /\ is_step (heap bc !! c).
Proof.
  intros (Hwf & Hst & Hnd) Hs Etop bc1.
  pose proof (Hwf _ _ Etop) as Hq. simpl in Hq. apply Forall_cons in Hq as [Hc Hq'].
  assert (Hne : top <> c).
  { intros ->. by rewrite Etop in Hc. }
  assert (He : extends (heap bc) (heap bc1)) by (by eapply extends_insert_Collection).
  assert (Hwf1 : wf_heap (heap bc1)).
  { simpl. eapply wf_heap_insert; [done..|].
    simpl. eapply Forall_impl; [exact Hq'|]. simpl. intros x. by apply extends_is_step. }
  rewrite Hs in Hst, Hnd. apply Forall_cons in Hst as [_ Hrest].
  apply NoDup_cons in Hnd as [Hnotin Hnd'].
  subst bc1. simpl in He, Hwf1 |- *.
  split; [|split; [|split; [|split]]]; try done.
  - split; [done|]. split; [|by (simpl; rewrite Hs; apply NoDup_cons)].
    simpl. rewrite Hs. eapply Forall_impl.
    { apply Forall_cons. split; [|exact Hrest]. simpl. by rewrite Etop. }
    simpl. intros f. by apply extends_is_collection.
  - unfold ticks_left. simpl. rewrite Hs. simpl.
    rewrite <- (stack_weight_extends (heap bc) _ rest Hwf He).
    2:{ apply Forall_forall. intros f Hf. split; [by eapply Forall_forall in Hrest|].
        apply list_lookup_insert_ne. intros ->. done. }
    unfold frame_weight at 1 3. rewrite Etop.
    rewrite list_lookup_insert_eq by (by eapply lookup_lt_Some). simpl.
    rewrite <- (queue_weight_extends (heap bc) _ q' Hwf He Hq'). lia.
  - simpl. by apply list_lookup_insert_ne.
Qed.


Lemma repeat_counter_wf h c qb d n n' :
  wf_heap h -> h !! c = Some (BridgeCommandRepeat qb d n) ->
  wf_heap (<[c := BridgeCommandRepeat qb d n']> h).
Proof.
  intros Hwf E. eapply wf_heap_insert; [done..|].
  apply (wf_object_mono h); [|exact (Hwf _ _ E)].
  intros x. apply extends_is_step. by eapply extends_insert_Repeat.
Qed.

Lemma frames_kept_by_repeat h h' c qb d n s :
  h !! c = Some (BridgeCommandRepeat qb d n) ->
  (forall f, f <> c -> f < length h -> h' !! f = h !! f) ->
  Forall (fun f => is_collection (h !! f)) s ->
  Forall (fun f => is_collection (h !! f) /\ h' !! f = h !! f) s.
Proof.
  intros E Hk Hs. eapply Forall_impl; [exact Hs|]. simpl. intros f Hf.
  split; [done|]. apply is_collection_Some in Hf as [q Ef]. apply Hk.
  - intros ->. congruence.
  - by eapply lookup_lt_Some.
Qed.

Lemma running_repeat_pop bc top rest c qb d n n' :
  running bc -> m_command_stack bc = top :: rest ->
  heap bc !! c = Some (BridgeCommandRepeat qb d n) ->
  let bc2 := set_stack rest (set_heap (<[c := BridgeCommandRepeat qb d n']> (heap bc)) bc) in
  running bc2 /\ ticks_left bc2 < ticks_left bc.
Proof.
  intros (Hwf & Hst & Hnd) Hs E bc2. subst bc2.
  rewrite Hs in Hst, Hnd.
  pose proof (extends_insert_Repeat _ _ _ _ _ n' E) as He.
  pose proof (frames_kept_by_repeat _ (<[c := BridgeCommandRepeat qb d n']> (heap bc))
                _ _ _ _ (top :: rest) E) as Hk.
  specialize (Hk ltac:(intros; by apply list_lookup_insert_ne) Hst).
  apply Forall_cons in Hst as [Htop Hrest]. apply Forall_cons in Hk as [_ Hk].
  apply NoDup_cons in Hnd as [_ Hnd].
  split.
  - split; [by eapply repeat_counter_wf|]. split; [|done]. simpl.
    eapply Forall_impl; [exact Hrest|]. simpl. intros f. by apply extends_is_collection.
  - unfold ticks_left. simpl. rewrite Hs. simpl.
    rewrite <- (stack_weight_extends (heap bc) _ rest Hwf He Hk).
    apply is_collection_Some in Htop as [q Etop].
    unfold frame_weight at 2. rewrite Etop. lia.
Qed.

Lemma running_repeat_push bc top rest c qb d n n' :
  running bc -> m_command_stack bc = top :: rest ->
  heap bc !! c = Some (BridgeCommandRepeat qb d n) ->
  let h2 := <[c := BridgeCommandRepeat qb d n']> (heap bc) in
  let bc2 := set_stack (length h2 :: top :: rest)
               (set_heap (h2 ++ [BridgeCommandCollection qb]) bc) in
  running bc2
  /\ ticks_left bc2 = 1 + sum_list_with (weight (heap bc)) qb + ticks_left bc.
Proof.
  intros (Hwf & Hst & Hnd) Hs E h2 bc2. subst bc2.
  rewrite Hs in Hst, Hnd.
  assert (He2 : extends (heap bc) h2) by (by eapply extends_insert_Repeat).
  assert (He3 : extends (heap bc) (h2 ++ [BridgeCommandCollection qb])).
  { eapply extends_trans; [exact He2|apply extends_app]. }
  assert (Hlen : length h2 = length (heap bc)) by apply length_insert.
  assert (Hqb : Forall (fun x => is_step (heap bc !! x)) qb).
  { pose proof (Hwf _ _ E) as Hq. simpl in Hq.
    eapply Forall_impl; [exact Hq|]. by intros x [_ ?]. }
  assert (Hk : Forall (fun f => is_collection (heap bc !! f)
                 /\ (h2 ++ [BridgeCommandCollection qb]) !! f = heap bc !! f) (top :: rest)).
  { eapply frames_kept_by_repeat; [exact E| |exact Hst].
    intros f Hne Hlt. rewrite lookup_app_l by lia. by apply list_lookup_insert_ne. }
  split.
  - split; [|split].
    + simpl. apply wf_heap_app; [by eapply repeat_counter_wf|].
      simpl. eapply Forall_impl; [exact Hqb|]. simpl. intros x. by apply extends_is_step.
    + simpl. apply Forall_cons. split.
      * by rewrite list_lookup_middle.
      * eapply Forall_impl; [exact Hst|]. simpl. intros f. by apply extends_is_collection.
    + simpl. apply NoDup_cons. split; [|done].
      intros Hin. eapply Forall_forall in Hst; [|exact Hin].
      apply is_collection_Some in Hst as [q Eq]. apply lookup_lt_Some in Eq. lia.
  - unfold ticks_left. cbn [heap m_command_stack set_stack set_heap]. rewrite Hs.
    change (sum_list_with ?f (length h2 :: ?s)) with (f (length h2) + sum_list_with f s).
    rewrite <- (stack_weight_extends (heap bc) _ (top :: rest) Hwf He3 Hk).
    unfold frame_weight at 1. rewrite list_lookup_middle by done.
    rewrite <- (queue_weight_extends (heap bc) _ qb Hwf He3 Hqb). lia.
Qed.

(** One tick of a running orchestrator returns, keeps it running and
    leaves fewer ticks. *)
Lemma running_tick bc top rest :
  running bc -> m_command_stack bc = top :: rest ->
  exists r bc', timer_callback kEventLoopTimerDone bc = Ok r bc'
    /\ running bc' /\ ticks_left bc' < ticks_left bc.
Proof.
  intros Hrun Hs. pose proof Hrun as (Hwf & Hst & Hnd).
  rewrite Hs in Hst, Hnd. apply Forall_cons in Hst as [Htop Hrest].
  apply NoDup_cons in Hnd as [_ Hnd].
  apply is_collection_Some in Htop as [q Etop].
  rewrite (Collection_advance _ _ _ _ _ Etop Hs). destruct q as [|c q'].
  - eexists _, _. split; [done|]. split; [by repeat split|].
    unfold ticks_left. simpl. rewrite Hs. simpl. unfold frame_weight at 2.
    rewrite Etop. simpl. lia.
  - destruct (running_dequeue _ _ _ _ _ Hrun Hs Etop) as (Hrun1 & Hticks & He & Ec & Hstep).
    pose proof (weight_pos (heap bc) c) as Hpos.
    remember (set_heap (<[top := BridgeCommandCollection q']> (heap bc)) bc) as bc1 eqn:Hbc1.
    assert (Hs1 : m_command_stack bc1 = top :: rest) by (by subst bc1).
    destruct (heap bc !! c) as [[cb|us|qq|qb d n|io]|] eqn:E; try done.
    + rewrite (Execute_advance _ _ _ _ Ec). eexists _, _. split; [done|]. split.
      * by eapply running_fields; [..|exact Hrun1].
      * rewrite (ticks_left_fields bc1) by done. lia.
    + rewrite (execute_Delay _ _ _ _ Ec). eexists _, _. split; [done|]. split; [done|lia].
    + rewrite (Repeat_advance _ _ _ _ _ _ _ _ Ec Hs1).
      rewrite (weight_extends _ _ c Hwf He) in Hticks by (by eapply lookup_lt_Some).
      destruct Hrun1 as (Hwf1 & ? & ?).
      rewrite (weight_Repeat _ _ _ _ _ Hwf1 Ec) in Hticks.
      eexists _, _. split; [done|]. simpl. destruct (n <=? 0)%Z.
      * destruct (running_repeat_pop bc1 top rest c qb d n (int_wrap (n - 1)))
          as [? ?]; [done..|]. split; [done|]. lia.
      * destruct (running_repeat_push bc1 top rest c qb d n (int_wrap (n - 1)))
          as [? ?]; [done..|]. split; [done|]. lia.
    + rewrite (WaitExit_advance _ _ _ _ Ec). eexists _, _. split; [done|]. split.
      * by eapply running_fields; [..|exact Hrun1].
      * rewrite (ticks_left_fields bc1) by done. lia.
Qed.

(** So the loop returns when given more fuel than there are ticks left. *)
Lemma running_EventLoop_start fuel delay bc :
  running bc -> ticks_left bc < fuel ->
  exists bc', EventLoop_start kEventLoopTimerDone (timer_callback kEventLoopTimerDone)
                fuel delay bc = Ok tt bc'.
Proof.
  revert delay bc. induction fuel as [|fuel IH]; intros delay bc Hrun Hf; [lia|].
  rewrite EventLoop_start_S. set (bc0 := set_clock _ bc).
  assert (Hrun0 : running bc0) by (by eapply running_fields; [..|exact Hrun]).
  assert (Ht0 : ticks_left bc0 = ticks_left bc) by (by apply ticks_left_fields).
  destruct (m_command_stack bc0) as [|top rest] eqn:Hs.
  - unfold timer_callback. rewrite Hs. rewrite Z.eqb_refl. eauto.
  - destruct (running_tick _ _ _ Hrun0 Hs) as (r & bc' & -> & Hrun' & Hlt).
    destruct (r =? kEventLoopTimerDone)%Z; [eauto|]. apply IH; [done|lia].
Qed.


Lemma is_frame_insert h t o o' f :
  h !! t = Some o -> is_frame (Some o') ->
  is_frame (h !! f) -> is_frame (<[t := o']> h !! f).
Proof.
  intros E Ho Hf. destruct (decide (t = f)) as [<-|Hne].
  - by rewrite list_lookup_insert_eq by (by eapply lookup_lt_Some).
  - by rewrite list_lookup_insert_ne.
Qed.

Lemma is_collection_insert h t o o' f :
  h !! t = Some o -> (is_collection (Some o) -> is_collection (Some o')) ->
  is_collection (h !! f) -> is_collection (<[t := o']> h !! f).
Proof.
  intros E Ho Hf. destruct (decide (t = f)) as [<-|Hne].
  - rewrite list_lookup_insert_eq by (by eapply lookup_lt_Some). rewrite E in Hf. auto.
  - by rewrite list_lookup_insert_ne.
Qed.

Lemma is_frame_app h o f : is_frame (h !! f) -> is_frame ((h ++ [o]) !! f).
Proof.
  intros Hf. destruct (h !! f) eqn:E; [|done].
  rewrite lookup_app_l by (by eapply lookup_lt_Some). by rewrite E.
Qed.

Lemma is_collection_app h o f : is_collection (h !! f) -> is_collection ((h ++ [o]) !! f).
Proof.
  intros Hf. destruct (h !! f) eqn:E; [|done].
  rewrite lookup_app_l by (by eapply lookup_lt_Some). by rewrite E.
Qed.

Lemma authoring_add o bc bc' t rest :
  authoring bc -> m_command_stack bc = t :: rest ->
  (forall h l, wf_object h l o) -> is_step (Some o) ->
  add_command t (length (heap bc)) (set_heap (heap bc ++ [o]) bc) = Ok tt bc' ->
  authoring bc' /\ m_command_stack bc' = m_command_stack bc
  /\ heap bc' !! length (heap bc) = Some o.
Proof.
  intros (Hwf & Hst & s & root & Hs & Hroot) Hstk Ho Hstep Hadd.
  assert (Ht : is_frame (heap bc !! t)).
  { rewrite Hstk in Hst. by apply Forall_cons in Hst as [? _]. }
  destruct (heap bc !! t) as [o0|] eqn:E; [|done].
  assert (Hlt : t < length (heap bc)) by (by eapply lookup_lt_Some).
  assert (E1 : (heap bc ++ [o]) !! t = Some o0) by (by rewrite lookup_app_l).
  unfold add_command in Hadd. simpl in Hadd. rewrite E1 in Hadd.
  assert (Hwf1 : wf_heap (heap bc ++ [o])) by (by apply wf_heap_app).
  assert (Hnew : (heap bc ++ [o]) !! length (heap bc) = Some o) by (by apply list_lookup_middle).
  assert (Hmono : forall o' x,
     (is_step (Some o0) -> is_step (Some o')) ->
     is_step ((heap bc ++ [o]) !! x) -> is_step (<[t := o']> (heap bc ++ [o]) !! x)).
  { intros o' x Hk Hx. destruct (decide (t = x)) as [<-|Hne].
    - rewrite list_lookup_insert_eq by (rewrite length_app; lia).
      rewrite E1 in Hx. auto.
    - by rewrite list_lookup_insert_ne. }
  assert (Hgoal : forall o',
     is_frame (Some o') ->
     (is_step (Some o0) -> is_step (Some o')) ->
     (is_collection (Some o0) -> is_collection (Some o')) ->
     wf_object (<[t := o']> (heap bc ++ [o])) t o' ->
     bc' = set_heap (<[t := o']> (heap bc ++ [o])) bc ->
     authoring bc' /\ m_command_stack bc' = m_command_stack bc
     /\ heap bc' !! length (heap bc) = Some o).
  { intros o' Hf Hk Hc Hwfo ->. simpl.
    split; [|split; [done|]].
    - split; [by eapply wf_heap_insert|]. split.
      + simpl. eapply Forall_impl; [exact Hst|]. simpl. intros f Hf'.
        eapply is_frame_insert; [done..|]. by apply is_frame_app.
      + exists s, root. split; [done|]. simpl.
        eapply is_collection_insert; [done..|]. by apply is_collection_app.
    - rewrite list_lookup_insert_ne by lia. done. }
  pose proof (Hwf1 t _ E1) as Hq.
  destruct o0 as [| |q|q d n|]; try done; injection Hadd as Hadd; symmetry in Hadd.
  - apply (Hgoal (BridgeCommandCollection (q ++ [length (heap bc)]))); [done|done|done| |done]. simpl.
    apply Forall_app. split.
    + simpl in Hq. eapply Forall_impl; [exact Hq|]. simpl. intros x. by eapply Hmono.
    + apply Forall_singleton. eapply Hmono; [done|]. by rewrite Hnew.
  - apply (Hgoal (BridgeCommandRepeat (q ++ [length (heap bc)]) d n)); [done|done|done| |done]. simpl.
    apply Forall_app. split.
    + simpl in Hq. eapply Forall_impl; [exact Hq|]. simpl.
      intros x [? ?]. split; [done|]. by eapply Hmono.
    + apply Forall_singleton. split; [done|]. eapply Hmono; [done|]. by rewrite Hnew.
Qed.

Lemma authoring_new r0 (w : World) : authoring (BridgeCommands_new r0 w).
Proof.
  split; [|split].
  - intros [|l] o E; simplify_eq/=. by apply Forall_nil.
  - by apply Forall_singleton.
  - by exists [], 0.
Qed.

Lemma authoring_add_step o bc bc' :
  authoring bc -> (forall h l, wf_object h l o) -> is_step (Some o) ->
  (t <- stack_top;; c <- make_shared o;; add_command t c) bc = Ok tt bc' ->
  authoring bc'.
Proof.
  intros Ha Ho Hstep. unfold bind, stack_top, make_shared.
  destruct (m_command_stack bc) as [|t rest] eqn:Hs; [done|]. intros Hadd.
  by destruct (authoring_add o bc bc' t rest) as [? _].
Qed.

(** The calls of the builder keep the orchestrator well formed. *)
Lemma authoring_call (cl : call) bc bc' :
  authoring bc -> do_call cl bc = Ok tt bc' -> authoring bc'.
Proof.
  intros Ha. destruct cl as [cb|delay count| |usecs|io]; simpl.
  - by apply authoring_add_step.
  - unfold add_repeat_start, bind, make_shared, stack_top. simpl.
    destruct (m_command_stack bc) as [|t rest] eqn:Hs; [done|].
    destruct (add_command _ _ _) as [[] bc1| | |] eqn:Hadd; try done.
    unfold stack_push. intros [= <-].
    destruct (authoring_add (BridgeCommandRepeat [] delay count) bc bc1 t rest Ha Hs)
      as ((Hwf & Hst & s & root & Hs1 & Hroot) & Hstk & Hnew); [by intros; apply Forall_nil|done..|].
    split; [done|]. split.
    + simpl. apply Forall_cons. split; [by rewrite Hnew|done].
    + exists (length (heap bc) :: s), root. simpl. by rewrite Hs1.
  - unfold add_repeat_end. destruct (length (m_command_stack bc) <=? 1) eqn:Hlen; [done|].
    apply Nat.leb_gt in Hlen. unfold stack_pop.
    destruct (m_command_stack bc) as [|t rest] eqn:Hs; [done|]. intros [= <-].
    destruct Ha as (Hwf & Hst & s & root & Hs1 & Hroot).
    split; [done|]. rewrite Hs in Hst. apply Forall_cons in Hst as [_ Hrest].
    split; [done|]. simpl. rewrite Hs in Hs1. destruct s as [|x s]; simplify_eq/=.
    + lia.
    + by exists s, root.
  - by apply authoring_add_step.
  - by apply authoring_add_step.
Qed.

Lemma authoring_author (cs : list call) bc bc' :
  authoring bc -> author cs bc = Ok tt bc' -> authoring bc'.
Proof.
  revert bc. induction cs as [|cl cs IH]; intros bc Ha; simpl.
  - by intros [= <-].
  - unfold bind. destruct (do_call cl bc) as [[] bc1| | |] eqn:Hc; try done.
    apply IH. by eapply authoring_call.
Qed.

Lemma authoring_running bc :
  authoring bc -> length (m_command_stack bc) = 1 -> running bc.
Proof.
  intros (Hwf & Hst & s & root & Hs & Hroot) Hlen.
  rewrite Hs in Hlen. rewrite length_app in Hlen. simpl in Hlen.
  destruct s; [|simpl in Hlen; lia]. simpl in Hs.
  split; [done|]. rewrite Hs. split; [by apply Forall_singleton|apply NoDup_singleton].
Qed.

(** A program built from a new orchestrator, with its repeats closed,
    runs to the end of [start_bridge]. *)
Lemma authored_start_bridge cs r0 (w : World) bc :
  author cs (BridgeCommands_new r0 w) = Ok tt bc ->
  length (m_command_stack bc) = 1 ->
  exists bc', start_bridge kEventLoopTimerDone (S (ticks_left bc)) bc
              = Ok (m_return_value bc') bc'.
Proof.
  intros Hau Hlen. unfold start_bridge. rewrite Hlen. simpl.
  destruct (running_EventLoop_start (S (ticks_left bc)) 0 bc) as [bc' Hrun].
  - eapply authoring_running; [|done]. eapply authoring_author; [|done]. apply authoring_new.
  - lia.
  - exists bc'. unfold bind, queue_next_command. by rewrite Hrun.
Qed.

End Termination.

(** ** A closed repeat keeps its queue *)

Section Closed.
Context {World : Type}.
Variable kEventLoopTimerDone : Z.
Implicit Types (bc : @BridgeCommands World) (h : list (@BridgeCommand World)).
Implicit Types (o : @BridgeCommand World) (l c f : nat) (q : list nat).

Lemma after_bind {A B} (m : M A) (k : A -> M B) bc (P : @BridgeCommands World -> Prop) :
  after (m bc) P -> (forall a bc', P bc' -> after (k a bc') P) ->
  after (bind m k bc) P.
Proof. unfold bind. destruct (m bc); simpl; auto. Qed.

Lemma closed_fields l q d bc bc' :
  heap bc' = heap bc -> m_command_stack bc' = m_command_stack bc ->
  closed_frame l q d bc -> closed_frame l q d bc'.
Proof. unfold closed_frame. by intros -> ->. Qed.

Lemma closed_pop l q d bc : closed_frame l q d bc -> after (stack_pop bc) (closed_frame l q d).
Proof.
  intros [Hl Hs]. unfold stack_pop. destruct (m_command_stack bc) as [|t s] eqn:E; [done|].
  split; [done|]. simpl. by apply not_elem_of_cons in Hs as [_ ?].
Qed.

Lemma closed_make_shared l q d o bc :
  closed_frame l q d bc ->
  closed_frame l q d (set_heap (heap bc ++ [o]) bc).
Proof.
  intros [[n Hl] Hs]. split; [|done]. exists n. simpl.
  by rewrite lookup_app_l by (by eapply lookup_lt_Some).
Qed.

Lemma closed_push l q d c bc :
  closed_frame l q d bc -> l <> c -> closed_frame l q d (set_stack (c :: m_command_stack bc) bc).
Proof. intros [Hl Hs] Hne. split; [done|]. simpl. by apply not_elem_of_cons. Qed.

Lemma closed_insert l q d t o' bc :
  closed_frame l q d bc ->
  (t = l -> exists n', o' = BridgeCommandRepeat q d n') ->
  closed_frame l q d (set_heap (<[t := o']> (heap bc)) bc).
Proof.
  intros [[n Hl] Hs] Ht. split; [|done]. simpl.
  destruct (decide (t = l)) as [->|Hne].
  - destruct (Ht eq_refl) as [n' ->]. exists n'.
    by rewrite list_lookup_insert_eq by (by eapply lookup_lt_Some).
  - exists n. by rewrite list_lookup_insert_ne.
Qed.

Lemma BridgeCommandRepeat_execute_closed l q d this q0 d0 n0 bc :
  heap bc !! this = Some (BridgeCommandRepeat q0 d0 n0) ->
  closed_frame l q d bc ->
  after (BridgeCommandRepeat_execute this q0 d0 n0 bc) (closed_frame l q d).
Proof.
  intros E Hc. unfold BridgeCommandRepeat_execute.
  assert (Hc1 : closed_frame l q d
            (set_heap (<[this := BridgeCommandRepeat q0 d0 (int_wrap (n0 - 1))]> (heap bc)) bc)).
  { apply closed_insert; [done|]. intros ->. destruct Hc as [[n Hl] _]. simplify_eq. eauto. }
  apply after_bind; [|by intros].
  destruct (n0 <=? 0)%Z; [by apply closed_pop|].
  unfold bind, make_shared, stack_push. simpl.
  apply (closed_push l q d _ (set_heap (_ ++ [_]) bc)).
  - by apply (closed_make_shared l q d _ (set_heap _ bc)).
  - destruct Hc as [[n Hl] _]. apply lookup_lt_Some in Hl. rewrite length_insert. lia.
Qed.

(** No advance of any command changes the queue of a closed repeat or
    puts the repeat on the stack. *)
Lemma execute_rec_closed l q d fuel this bc :
  closed_frame l q d bc ->
  after (execute_rec kEventLoopTimerDone fuel this bc) (closed_frame l q d).
Proof.
  revert this bc. induction fuel as [|fuel IH]; intros this bc Hc; [done|]. simpl.
  destruct (heap bc !! this) as [[cb|us|[|c q']|q0 d0 n0|io]|] eqn:E; try done.
  - unfold BridgeCommandExecute_execute. simpl. by destruct (cb (world bc)).
  - apply after_bind; [by apply closed_pop|by intros].
  - apply IH. apply closed_insert; [done|]. intros ->.
    destruct Hc as [[n Hl] _]. congruence.
  - by apply BridgeCommandRepeat_execute_closed.
Qed.

Lemma timer_callback_closed l q d bc :
  closed_frame l q d bc ->
  after (timer_callback kEventLoopTimerDone bc) (closed_frame l q d).
Proof.
  intros Hc. unfold timer_callback. destruct (m_command_stack bc); [done|].
  by apply execute_rec_closed.
Qed.

Lemma EventLoop_start_closed l q d fuel delay bc :
  closed_frame l q d bc ->
  after (EventLoop_start kEventLoopTimerDone (timer_callback kEventLoopTimerDone) fuel delay bc)
        (closed_frame l q d).
Proof.
  revert delay bc. induction fuel as [|fuel IH]; intros delay bc Hc; [done|].
  rewrite EventLoop_start_S.
  pose proof (timer_callback_closed l q d (set_clock (clock bc + Z.max 0 delay) bc)) as Ht.
  destruct (timer_callback _ _) as [r bc'| | |]; try done.
  - destruct (r =? kEventLoopTimerDone)%Z; [by apply Ht|]. apply IH. by apply Ht.
  - by apply Ht.
Qed.

Lemma fire_on_exit_closed l q d fuel registered bc :
  closed_frame l q d bc ->
  after (fire_on_exit kEventLoopTimerDone fuel registered bc) (closed_frame l q d).
Proof.
  revert bc. induction registered as [|k IH]; intros bc Hc; [done|]. simpl.
  apply after_bind; [by apply EventLoop_start_closed|]. intros _ bc' Hc'. by apply IH.
Qed.

(** The builder appends to the frame on top of the stack only, and pushes
    new objects only. *)
Lemma do_call_closed l q d (cl : call) bc :
  closed_frame l q d bc -> after (do_call cl bc) (closed_frame l q d).
Proof.
  intros Hc.
  assert (Hadd : forall o t bc1, closed_frame l q d bc1 -> t ∈ m_command_stack bc1 ->
            after (add_command t (length (heap bc1)) (set_heap (heap bc1 ++ [o]) bc1))
                  (closed_frame l q d)).
  { intros o t bc1 Hc1 Ht. unfold add_command. simpl.
    assert (Hne : t <> l) by (intros ->; by destruct Hc1).
    destruct ((heap bc1 ++ [o]) !! t) as [[| |q0|q0 d0 n0|]|]; try done; simpl.
    - apply (closed_insert l q d t _ (set_heap _ bc1)); [by apply closed_make_shared|done].
    - apply (closed_insert l q d t _ (set_heap _ bc1)); [by apply closed_make_shared|done]. }
  assert (Hstep : forall o, after ((t <- stack_top;; c <- make_shared o;; add_command t c) bc)
                                  (closed_frame l q d)).
  { intros o. unfold bind, stack_top, make_shared.
    destruct (m_command_stack bc) as [|t s] eqn:Es; [done|].
    apply Hadd; [done|]. rewrite Es. apply elem_of_cons. by left. }
  destruct cl as [cb|delay count| |usecs|io]; simpl; try apply Hstep.
  - unfold add_repeat_start, bind, make_shared, stack_top. simpl.
    destruct (m_command_stack bc) as [|t s] eqn:Es; [done|].
    pose proof (Hadd (BridgeCommandRepeat [] delay count) t bc Hc) as Ha.
    rewrite Es in Ha. specialize (Ha ltac:(apply elem_of_cons; by left)).
    destruct (add_command _ _ _) as [[] bc1| | |] eqn:Eadd; try done.
    unfold stack_push. simpl. simpl in Ha. apply closed_push; [done|].
    destruct Hc as [[n Hl] _]. apply lookup_lt_Some in Hl. lia.
  - unfold add_repeat_end. destruct (_ <=? 1); [done|]. by apply closed_pop.
Qed.

Lemma happen_closed l q d (e : event) bc :
  closed_frame l q d bc -> after (happen kEventLoopTimerDone e bc) (closed_frame l q d).
Proof.
  intros Hc. destruct e as [cl| |fuel|fuel io]; simpl.
  - by apply do_call_closed.
  - apply after_bind; [by apply timer_callback_closed|by intros].
  - apply after_bind; [|by intros]. unfold start_bridge.
    destruct (negb _); [done|]. apply after_bind; [|by intros].
    by apply EventLoop_start_closed.
  - unfold Ioloop_exit. apply fire_on_exit_closed. by eapply closed_fields; [..|exact Hc].
Qed.

Lemma happens_closed l q d (es : list event) bc :
  closed_frame l q d bc -> after (happens kEventLoopTimerDone es bc) (closed_frame l q d).
Proof.
  revert bc. induction es as [|e es IH]; intros bc Hc; [done|]. simpl.
  pose proof (happen_closed l q d e bc Hc) as He.
  destruct (happen _ e bc); try done; by apply IH.
Qed.

End Closed.

(** ** The scheduler and the steps *)

Section Loop.
Context {World : Type}.
Variable kEventLoopTimerDone : Z.
Implicit Types (bc : @BridgeCommands World) (h : list (@BridgeCommand World)).

Lemma EventLoop_start_rearm callback fuel delay bc r bc' :
  callback (set_clock (clock bc + Z.max 0 delay) bc) = Ok r bc' ->
  r <> kEventLoopTimerDone ->
  EventLoop_start kEventLoopTimerDone callback (S fuel) delay bc
  = EventLoop_start kEventLoopTimerDone callback fuel r bc'.
Proof.
  intros Hc Hr. rewrite EventLoop_start_S, Hc.
  by destruct (Z.eqb_spec r kEventLoopTimerDone).
Qed.

Lemma EventLoop_start_done callback fuel delay bc bc' :
  callback (set_clock (clock bc + Z.max 0 delay) bc) = Ok kEventLoopTimerDone bc' ->
  EventLoop_start kEventLoopTimerDone callback (S fuel) delay bc = Ok tt bc'.
Proof. intros Hc. by rewrite EventLoop_start_S, Hc, Z.eqb_refl. Qed.


Lemma EventLoop_start_never_throws callback :
  (forall bc e bc', callback bc <> Throw e bc') ->
  forall fuel delay bc e bc',
  EventLoop_start kEventLoopTimerDone callback fuel delay bc <> Throw e bc'.
Proof.
  intros Hc. induction fuel as [|fuel IH]; intros delay bc e bc'; [done|].
  rewrite EventLoop_start_S.
  destruct (callback _) as [r bc1| | |] eqn:E; try done.
  - destruct (r =? kEventLoopTimerDone)%Z; [done|apply IH].
  - by apply Hc in E.
Qed.

Lemma set_on_exit_same bc : set_on_exit (on_exit bc) bc = bc.
Proof. by destruct bc. Qed.

Lemma filter_eq_fresh (io : nat) (l : list nat) :
  io ∉ l -> filter (fun r => r = io) l = [] /\ filter (fun r => r <> io) l = l.
Proof.
  induction l as [|x l IH]; [done|]. intros Hn.
  apply not_elem_of_cons in Hn as [Hne Hn]. destruct (IH Hn) as [IH1 IH2].
  rewrite !filter_cons. destruct (decide (x = io)); [congruence|].
  destruct (decide (x <> io)); [|done]. by rewrite IH1, IH2.
Qed.

(** C6. A single advance of an ExecuteStep invokes its callback, stores
    the value it returns in the result slot of the orchestrator, and
    returns ContinueAfter(0) when that value is not zero and Halt when it
    is zero. *)
Theorem ExecuteStep_advance this cb bc :
  heap bc !! this = Some (BridgeCommandExecute cb) ->
  execute kEventLoopTimerDone this bc
  = Ok (if ((cb (world bc)).1 =? 0)%Z then Halt kEventLoopTimerDone else ContinueAfter 0)
      (printf (after_execute (cb (world bc)).1)
         (set_return_value (cb (world bc)).1
            (set_world (cb (world bc)).2 (printf before_execute bc)))).
Proof. apply Execute_advance. Qed.

(** C7. A single advance of a Collection on top of the stack: with an
    empty queue it pops that Collection and returns ContinueAfter(0);
    otherwise it takes the command at the front of the queue, runs it and
    returns what it returns.  Commands are added at the back, so they run
    in the order they were added. *)
Theorem Collection_advance_fifo this q rest bc :
  heap bc !! this = Some (BridgeCommandCollection q) ->
  m_command_stack bc = this :: rest ->
  timer_callback kEventLoopTimerDone bc
  = match q with
    | [] => Ok (ContinueAfter 0) (set_stack rest bc)
    | command :: q' =>
        execute kEventLoopTimerDone command
          (set_heap (<[this := BridgeCommandCollection q']> (heap bc)) bc)
    end
  /\ forall command,
       add_command this command bc
       = Ok tt (set_heap (<[this := BridgeCommandCollection (q ++ [command])]> (heap bc)) bc).
Proof.
  intros Hl Hs. split; [by apply Collection_advance|].
  intros command. unfold add_command. by rewrite Hl.
Qed.

(** C8. The driver registers its callback with an initial delay of zero.
    Each time the timer fires, the callback reports Halt when the stack is
    empty and otherwise returns what the advance of the top frame returns;
    the loop fires the timer again after the delay returned, or stops on
    Halt.  So a run ends either on an empty stack or on a Halt returned by
    the top frame. *)
Theorem scheduler_driver fuel bc :
  queue_next_command kEventLoopTimerDone fuel bc
  = EventLoop_start kEventLoopTimerDone (timer_callback kEventLoopTimerDone) fuel 0 bc
  /\ timer_callback kEventLoopTimerDone bc
     = match m_command_stack bc with
       | [] => Ok (Halt kEventLoopTimerDone) bc
       | top :: _ => execute kEventLoopTimerDone top bc
       end
  /\ (forall callback delay,
        EventLoop_start kEventLoopTimerDone callback (S fuel) delay bc
        = match callback (set_clock (clock bc + Z.max 0 delay) bc) with
          | Ok r bc' =>
              if (r =? Halt kEventLoopTimerDone)%Z then Ok tt bc'
              else EventLoop_start kEventLoopTimerDone callback fuel (ContinueAfter r) bc'
          | Throw e bc' => Throw e bc'
          | Undefined => Undefined
          | OutOfFuel => OutOfFuel
          end)
  /\ (forall bc',
        queue_next_command kEventLoopTimerDone fuel bc = Ok tt bc' ->
        m_command_stack bc' = []
        \/ exists bc0 top rest,
             m_command_stack bc0 = top :: rest
             /\ execute kEventLoopTimerDone top bc0 = Ok (Halt kEventLoopTimerDone) bc').
Proof.
  split; [done|]. split; [done|]. split; [done|].
  unfold queue_next_command. generalize 0%Z as delay. revert bc.
  induction fuel as [|fuel IH]; intros bc delay bc'; [done|].
  rewrite EventLoop_start_S. set (bc0 := set_clock _ bc).
  destruct (timer_callback _ bc0) as [r bc1| | |] eqn:E; try done.
  destruct (Z.eqb_spec r kEventLoopTimerDone) as [->|Hne]; [|by apply IH].
  intros [= <-]. unfold timer_callback in E.
  destruct (m_command_stack bc0) as [|top rest] eqn:Hs.
  - left. by simplify_eq.
  - right. by exists bc0, top, rest.
Qed.

(** C9. A single advance of a WaitExitStep registers a callback on its
    lifecycle handle and returns Halt at once.  When the collaborator
    signals the exit, the callbacks registered on the handle are used up
    and the one just registered calls queue_next_command on the
    orchestrator; a signal on a handle with no callback registered does
    nothing. *)
Theorem WaitExitStep_advance this io bc :
  heap bc !! this = Some (BridgeCommandWaitExit io) ->
  execute kEventLoopTimerDone this bc
  = Ok (Halt kEventLoopTimerDone) (set_on_exit (on_exit bc ++ [io]) bc)
  /\ (forall fuel,
        Ioloop_exit kEventLoopTimerDone fuel io (set_on_exit (on_exit bc ++ [io]) bc)
        = (queue_next_command kEventLoopTimerDone fuel;;;
           fire_on_exit kEventLoopTimerDone fuel
             (length (filter (fun r => r = io) (on_exit bc))))
            (set_on_exit (filter (fun r => r <> io) (on_exit bc)) bc))
  /\ (forall fuel bc0,
        io ∉ on_exit bc0 -> Ioloop_exit kEventLoopTimerDone fuel io bc0 = Ok tt bc0).
Proof.
  intros Hl. split; [by apply WaitExit_advance|]. split.
  - intros fuel. unfold Ioloop_exit. simpl. rewrite !filter_app, !filter_cons, !filter_nil.
    destruct (decide (io = io)); [|done]. destruct (decide (io <> io)); [done|].
    rewrite length_app, app_nil_r. simpl. rewrite Nat.add_1_r. reflexivity.
  - intros fuel bc0 Hio. destruct (filter_eq_fresh io (on_exit bc0) Hio) as [Hf1 Hf2].
    unfold Ioloop_exit. rewrite Hf1, Hf2. simpl. unfold ret. by rewrite set_on_exit_same.
Qed.

(** C10. When a Collection on top of the stack takes a repeat with a
    count of zero or less off its queue, the advance of the repeat pops
    that Collection (the repeat itself is not on the stack) and returns
    ContinueAfter(perIterationDelay).  The commands queued after the
    repeat stay in the popped Collection; when it was the root, the run
    ends without running them. *)
Theorem exhausted_repeat_skips_enclosing_scope bc top rest r q' qb d n :
  m_command_stack bc = top :: rest ->
  heap bc !! top = Some (BridgeCommandCollection (r :: q')) ->
  heap bc !! r = Some (BridgeCommandRepeat qb d n) ->
  (n <= 0)%Z ->
  let bc' := set_stack rest
               (set_heap (<[r := BridgeCommandRepeat qb d (int_wrap (n - 1))]>
                            (<[top := BridgeCommandCollection q']> (heap bc))) bc) in
  timer_callback kEventLoopTimerDone bc = Ok (ContinueAfter d) bc'
  /\ top <> r
  /\ heap bc' !! top = Some (BridgeCommandCollection q')
  /\ (rest = [] -> forall fuel delay, exists t,
        EventLoop_start kEventLoopTimerDone (timer_callback kEventLoopTimerDone)
          (S (S fuel)) delay bc = Ok tt (set_clock t bc')).
Proof.
  intros Hs Etop Er Hn bc'.
  assert (Hne : top <> r) by (intros ->; congruence).
  assert (Htick : forall t, timer_callback kEventLoopTimerDone (set_clock t bc)
                            = Ok d (set_clock t bc')).
  { intros t. rewrite (Collection_advance _ top _ rest (set_clock t bc) Etop Hs).
    erewrite Repeat_advance; [|by simpl; rewrite list_lookup_insert_ne|by simpl].
    apply Z.leb_le in Hn. by rewrite Hn. }
  split; [|split; [done|split]].
  - specialize (Htick (clock bc)). by destruct bc.
  - simpl. rewrite list_lookup_insert_ne by done.
    by rewrite list_lookup_insert_eq by (by eapply lookup_lt_Some).
  - intros -> fuel delay. destruct (Z.eq_dec d kEventLoopTimerDone) as [Hd|Hd].
    + eexists. apply EventLoop_start_done. by rewrite Htick, Hd.
    + eexists. erewrite EventLoop_start_rearm; [|apply Htick|done].
      by apply EventLoop_start_done.
Qed.

(** The other branch: a repeat taken off the queue with iterations left
    pushes the Collection of one iteration.  The repeat is then neither in
    the queue it came from nor on the stack, so no later tick reaches it
    through them: the body runs once. *)
Lemma dequeued_repeat_starts_one_iteration bc top rest r q' qb d n :
  m_command_stack bc = top :: rest ->
  heap bc !! top = Some (BridgeCommandCollection (r :: q')) ->
  heap bc !! r = Some (BridgeCommandRepeat qb d n) ->
  (0 < n)%Z ->
  exists bc',
    timer_callback kEventLoopTimerDone bc = Ok (ContinueAfter d) bc'
    /\ m_command_stack bc' = length (heap bc) :: top :: rest
    /\ heap bc' !! length (heap bc) = Some (BridgeCommandCollection qb)
    /\ heap bc' !! top = Some (BridgeCommandCollection q')
    /\ heap bc' !! r = Some (BridgeCommandRepeat qb d (int_wrap (n - 1)))
    /\ (r ∉ rest -> r ∉ m_command_stack bc').
Proof.
  intros Hs Etop Er Hn.
  assert (Hne : top <> r) by (intros ->; congruence).
  pose proof (lookup_lt_Some _ _ _ Etop) as Htop.
  pose proof (lookup_lt_Some _ _ _ Er) as Hr.
  rewrite (Collection_advance _ top _ rest bc Etop Hs).
  erewrite Repeat_advance; [|by simpl; rewrite list_lookup_insert_ne|by simpl].
  apply Z.leb_gt in Hn. rewrite Hn. eexists. split; [done|]. simpl.
  rewrite !length_insert. split; [done|]. split; [|split; [|split]].
  - apply list_lookup_middle. by rewrite !length_insert.
  - rewrite lookup_app_l by (by rewrite !length_insert).
    rewrite list_lookup_insert_ne by done.
    by apply list_lookup_insert_eq.
  - rewrite lookup_app_l by (by rewrite !length_insert).
    apply list_lookup_insert_eq. by rewrite length_insert.
  - intros Hrest. rewrite !not_elem_of_cons. repeat split; [lia|done|done].
Qed.

(** C3, as amended. When the callback of an ExecuteStep at the front of
    the top Collection returns zero, the run stops right after it: the
    loop returns normally, the commands queued after the step and the
    frames below stay where they are, and when no exit callback is
    registered no exit signal starts the run again. *)
Theorem zero_callback_halts_the_run bc top rest c q cb fuel delay :
  m_command_stack bc = top :: rest ->
  heap bc !! top = Some (BridgeCommandCollection (c :: q)) ->
  heap bc !! c = Some (BridgeCommandExecute cb) ->
  (cb (world bc)).1 = 0%Z ->
  exists bc',
    EventLoop_start kEventLoopTimerDone (timer_callback kEventLoopTimerDone)
      (S fuel) delay bc = Ok tt bc'
    /\ world bc' = (cb (world bc)).2
    /\ m_return_value bc' = 0%Z
    /\ m_command_stack bc' = top :: rest
    /\ heap bc' = <[top := BridgeCommandCollection q]> (heap bc)
    /\ on_exit bc' = on_exit bc
    /\ (on_exit bc = [] ->
        forall fuel' io, Ioloop_exit kEventLoopTimerDone fuel' io bc' = Ok tt bc').
Proof.
  intros Hs Etop Ec Hz.
  assert (Hne : top <> c) by (intros ->; congruence).
  eexists. split.
  - apply EventLoop_start_done.
    rewrite (Collection_advance _ top _ rest (set_clock _ bc) Etop Hs).
    erewrite Execute_advance; [|by simpl; rewrite list_lookup_insert_ne].
    change (world (set_heap _ (set_clock _ bc))) with (world bc).
    rewrite Hz. reflexivity.
  - simpl. repeat (split; [done|]).
    intros He fuel' io. unfold Ioloop_exit.
    destruct bc as [h s rv oe w cl out]. simpl in He. subst oe. reflexivity.
Qed.


Lemma execute_rec_never_throws fuel this bc e bc' :
  execute_rec kEventLoopTimerDone fuel this bc <> Throw e bc'.
Proof.
  revert this bc. induction fuel as [|fuel IH]; intros this bc; [done|]. simpl.
  destruct (heap bc !! this) as [[cb|us|[|c q']|q0 d0 n0|io]|]; try done.
  - unfold BridgeCommandExecute_execute. simpl. by destruct (cb (world bc)).
  - unfold bind, stack_pop, ret. destruct (m_command_stack bc); discriminate.
  - unfold BridgeCommandRepeat_execute, bind, stack_pop, make_shared, stack_push, ret. simpl.
    destruct (n0 <=? 0)%Z; [|discriminate].
    cbn [m_command_stack set_heap]. destruct (m_command_stack bc); discriminate.
Qed.

Lemma timer_callback_never_throws bc e bc' :
  timer_callback kEventLoopTimerDone bc <> Throw e bc'.
Proof.
  unfold timer_callback. destruct (m_command_stack bc); [done|].
  apply execute_rec_never_throws.
Qed.

(** C5. start_bridge throws the unmatched-loop exception when more than
    one frame is on the stack, and add_repeat_end throws it when no loop
    is open; the orchestrator is then as it was and no step has run.  With
    exactly one frame start_bridge does not throw: it runs the scheduler
    and returns the result slot, and for every program built through the
    interface it returns. *)
Theorem unmatched_loop_guards bc :
  (1 < length (m_command_stack bc) ->
   forall fuel, start_bridge kEventLoopTimerDone fuel bc
                = Throw BridgeUnmatchedLoopException bc)
  /\ (length (m_command_stack bc) <= 1 ->
      add_repeat_end bc = Throw BridgeUnmatchedLoopException bc)
  /\ (length (m_command_stack bc) = 1 ->
      (forall fuel,
         start_bridge kEventLoopTimerDone fuel bc
         = (queue_next_command kEventLoopTimerDone fuel;;; get_return_value) bc)
      /\ (forall fuel e bc', start_bridge kEventLoopTimerDone fuel bc <> Throw e bc')
      /\ (forall cs r0 w,
            author cs (BridgeCommands_new r0 w) = Ok tt bc ->
            exists bc', start_bridge kEventLoopTimerDone (S (ticks_left bc)) bc
                        = Ok (m_return_value bc') bc')).
Proof.
  split; [|split].
  - intros Hlen fuel. unfold start_bridge.
    destruct (Nat.eqb_spec (length (m_command_stack bc)) 1); [lia|done].
  - intros Hlen. unfold add_repeat_end. apply Nat.leb_le in Hlen. by rewrite Hlen.
  - intros Hlen.
    assert (Hstart : forall fuel,
      start_bridge kEventLoopTimerDone fuel bc
      = (queue_next_command kEventLoopTimerDone fuel;;; get_return_value) bc).
    { intros fuel. unfold start_bridge. by rewrite Hlen. }
    split; [done|]. split.
    + intros fuel e bc'. rewrite Hstart. unfold bind, queue_next_command.
      destruct (EventLoop_start _ _ _ _ _) eqn:E; try done.
      exfalso. eapply EventLoop_start_never_throws; [|exact E].
      intros. apply timer_callback_never_throws.
    + intros cs r0 w Hau. by eapply authored_start_bridge.
Qed.

(** C2, as amended. Once the block of a repeat is closed, no call of the
    builder, no tick, no start and no exit signal changes its queue of
    commands or its delay; only its counter changes.  An iteration runs a
    Collection made for it at a new address, holding a copy of that queue:
    the addresses are copied, the commands they stand for are shared. *)
Theorem closed_repeat_keeps_its_queue l q d bc :
  closed_frame l q d bc ->
  (forall es, after (happens kEventLoopTimerDone es bc) (closed_frame l q d))
  /\ (forall n top rest,
        heap bc !! l = Some (BridgeCommandRepeat q d n) ->
        m_command_stack bc = top :: rest -> (0 < n)%Z ->
        exists bc',
          execute kEventLoopTimerDone l bc = Ok (ContinueAfter d) bc'
          /\ m_command_stack bc' = length (heap bc) :: top :: rest
          /\ heap bc !! length (heap bc) = None
          /\ heap bc' !! length (heap bc) = Some (BridgeCommandCollection q)
          /\ heap bc' !! l = Some (BridgeCommandRepeat q d (int_wrap (n - 1)))).
Proof.
  intros Hc. split; [intros es; by apply happens_closed|].
  intros n top rest Hl Hs Hn. rewrite (Repeat_advance _ _ _ _ _ _ _ _ Hl Hs).
  apply Z.leb_gt in Hn. rewrite Hn. eexists. split; [done|]. simpl.
  rewrite length_insert. pose proof (lookup_lt_Some _ _ _ Hl).
  split; [done|]. split; [by apply lookup_ge_None_2|]. split.
  - apply list_lookup_middle. by rewrite length_insert.
  - rewrite lookup_app_l by (by rewrite length_insert).
    by apply list_lookup_insert_eq.
Qed.

End Loop.

Ltac timer_runs :=
  cbn -[int_wrap Z.sub];
  cbv beta iota delta [printf set_return_value set_world set_heap set_stack set_clock
                       set_on_exit heap m_command_stack m_return_value on_exit world
                       clock stdout];
  cbn -[int_wrap Z.sub]; reflexivity.

Ltac timer_fires :=
  erewrite EventLoop_start_rearm; [ | timer_runs | first [done | lia] ].

Ltac timer_done :=
  erewrite EventLoop_start_done; [ | timer_runs ].

(** ** The programs of the scenarios *)

Open Scope string_scope.


Lemma built_repeat_scenario count :
  built (repeat_scenario count)
  = mkBridgeCommands
      [BridgeCommandCollection [1; 2; 5]; BridgeCommandExecute (invoke "A" 1);
       BridgeCommandRepeat [3; 4] 1000 count; BridgeCommandDelay 500;
       BridgeCommandExecute (invoke "B" 1); BridgeCommandExecute (invoke "C" 1)]
      [0] 0 [] [] 0 [].
Proof. reflexivity. Qed.


(** C1. In [Execute(A), RepeatStart(1000, count){ Delay(500), Execute(B) },
    Execute(C)] with callbacks that return true, the callbacks run in the
    order A, B, C for every count of one or more: the repeat is taken off
    the queue of the root and run once from there, so its body runs once,
    whatever the count. *)
Theorem repeat_body_runs_once (kEventLoopTimerDone count : Z) (fuel : nat) :
  kEventLoopTimerDone <> 0%Z -> kEventLoopTimerDone <> 500%Z ->
  kEventLoopTimerDone <> 1000%Z -> (1 <= count)%Z ->
  exists bc',
    start_bridge kEventLoopTimerDone (8 + fuel) (built (repeat_scenario count)) = Ok 1%Z bc'
    /\ world bc' = ["A"; "B"; "C"]
    /\ m_command_stack bc' = [].
Proof.
  intros H0 H500 H1000 Hcount.
  destruct count as [|p|p]; try lia.
  rewrite built_repeat_scenario.
  unfold start_bridge, queue_next_command, bind. cbn [m_command_stack length Nat.eqb negb].
  change (8 + fuel) with (S (S (S (S (S (S (S (S fuel)))))))).
  timer_fires.
  timer_fires.
  timer_fires. timer_fires. timer_fires. timer_fires. timer_fires. timer_done.
  eexists. repeat split.
Qed.

(** C4. In [RepeatStart(7, 0){ Execute(B) }, Execute(C)] the root
    Collection (address 0) is alone on the stack when it takes the repeat
    (address 1) off its queue; the advance of the repeat then pops the
    root, not the repeat, and leaves the stack empty. *)
Theorem exhausted_repeat_pops_the_root (kEventLoopTimerDone : Z) :
  m_command_stack (built empty_repeat_scenario) = [0]
  /\ heap (built empty_repeat_scenario) !! 0 = Some (BridgeCommandCollection [1; 3])
  /\ heap (built empty_repeat_scenario) !! 1 = Some (BridgeCommandRepeat [2] 7 0)
  /\ exists bc',
       timer_callback kEventLoopTimerDone (built empty_repeat_scenario)
       = Ok (ContinueAfter 7) bc'
       /\ m_command_stack bc' = []
       /\ heap bc' !! 0 = Some (BridgeCommandCollection [3])
       /\ heap bc' !! 1 = Some (BridgeCommandRepeat [2] 7 (-1)).
Proof.
  split; [reflexivity|]. split; [reflexivity|]. split; [reflexivity|].
  eexists. split; [vm_compute; reflexivity|]. repeat split.
Qed.

(** In [RepeatStart(0, 1){ RepeatStart(0, 0){ Execute(X) }, Execute(Y) },
    Execute(Z)] the inner repeat pops the Collection of the iteration of
    the outer one: X and Y are skipped and Z runs. *)
Lemma exhausted_repeat_skips_rest_of_body (kEventLoopTimerDone : Z) (fuel : nat) :
  kEventLoopTimerDone <> 0%Z ->
  exists bc',
    start_bridge kEventLoopTimerDone (5 + fuel) (built skipped_body_scenario) = Ok 1%Z bc'
    /\ world bc' = ["Z"]
    /\ m_command_stack bc' = [].
Proof.
  intros H0. unfold start_bridge, queue_next_command, bind.
  change (built skipped_body_scenario) with
    (mkBridgeCommands
       [BridgeCommandCollection [1; 5]; BridgeCommandRepeat [2; 4] 0 1;
        BridgeCommandRepeat [3] 0 0; BridgeCommandExecute (invoke "X" 1);
        BridgeCommandExecute (invoke "Y" 1); BridgeCommandExecute (invoke "Z" 1)]
       [0] 0 [] [] 0 []).
  cbn [m_command_stack length Nat.eqb negb].
  change (5 + fuel) with (S (S (S (S (S fuel))))).
  do 4 timer_fires. timer_done. eexists. repeat split.
Qed.

(** C2, as stated, fails on [RepeatStart(0, 1){ RepeatStart(0, 1){ } }]
    (with -1 for [kEventLoopTimerDone]): the body of the outer repeat
    (address 1) holds the inner repeat with one iteration left before the
    run and with none left after it.  The Collection of the iteration
    held the address of the inner repeat, not a copy of it. *)
Lemma nested_repeat_counter_is_shared :
  closed_frame 1 [2] 0 (built nested_repeat_scenario)
  /\ body_of 2 (heap (built nested_repeat_scenario)) 1 = [RepeatFrame 1 0 []]
  /\ exists bc',
       start_bridge (-1) 6 (built nested_repeat_scenario) = Ok 0%Z bc'
       /\ closed_frame 1 [2] 0 bc'
       /\ body_of 2 (heap bc') 1 = [RepeatFrame 0 0 []].
Proof.
  assert (Hn : 1 ∉ [0]) by (intros H; apply list_elem_of_singleton in H; lia).
  split; [split; [by exists 1%Z|done]|]. split; [done|].
  eexists. split; [vm_compute; reflexivity|].
  split; [|done]. split; [by exists 0%Z|]. simpl. apply not_elem_of_nil.
Qed.

(** A repeat that is on the stack when the timer fires is advanced after
    each of its iterations, and its body runs as many times as its count
    says: B is invoked three times. *)
Lemma open_repeat_runs_count_times :
  exists bc',
    happens (-1) open_repeat_counts_events (BridgeCommands_new 0 []) = Ok tt bc'
    /\ world bc' = ["B"; "B"; "B"]
    /\ m_command_stack bc' = [].
Proof. eexists. split; [vm_compute; reflexivity|done]. Qed.

(** A repeat left open while the run is suspended is on the stack when
    the exit signal starts the timer again, and is then advanced once for
    each iteration.  Its second iteration finds the nested repeat with no
    iteration left: with counts 2 and 1, X is invoked once. *)
Lemma open_repeat_shares_nested_counter :
  exists bc',
    happens (-1) open_repeat_events (BridgeCommands_new 0 []) = Ok tt bc'
    /\ world bc' = ["X"]
    /\ m_command_stack bc' = [].
Proof. eexists. split; [vm_compute; reflexivity|done]. Qed.

(** C3, as stated, fails: a run can end early though no callback has
    returned zero (with -1 for [kEventLoopTimerDone]).  In
    [RepeatStart(7, 0){ Execute(B) }, Execute(C)] the run ends on an empty
    stack and in [WaitExit(5), Execute(C)] the timer stops at the wait; in
    both no callback has run and C is never invoked. *)
Lemma run_ends_early_without_zero_callback :
  (exists bc',
     start_bridge (-1) 2 (built empty_repeat_scenario) = Ok 0%Z bc'
     /\ world bc' = [] /\ stdout bc' = [] /\ m_command_stack bc' = [])
  /\ (exists bc',
        start_bridge (-1) 1 (built wait_exit_scenario) = Ok 0%Z bc'
        /\ world bc' = [] /\ stdout bc' = [] /\ on_exit bc' = [5]).
Proof. split; (eexists; split; [vm_compute; reflexivity|done]). Qed.

(** ** The properties at work on the scenarios *)

Lemma repeat_body_runs_once_witness :
  ((-1) <> 0 /\ (-1) <> 500 /\ (-1) <> 1000 /\ 1 <= 2)%Z
  /\ exists bc',
       start_bridge (-1) (8 + 0) (built (repeat_scenario 2)) = Ok 1%Z bc'
       /\ world bc' = ["A"; "B"; "C"]
       /\ m_command_stack bc' = [].
Proof.
  split; [lia|]. apply (repeat_body_runs_once (-1) 2 0); lia.
Defined.

Lemma closed_repeat_keeps_its_queue_witness :
  closed_frame 1 [2] 0 (built nested_repeat_scenario)
  /\ after (happens (-1) [Starts 6; Calls (AddDelay 1); Exits 3 5]
              (built nested_repeat_scenario))
           (closed_frame 1 [2] 0).
Proof.
  assert (Hc : closed_frame 1 [2] 0 (built nested_repeat_scenario)).
  { split; [by exists 1%Z|]. intros H. apply list_elem_of_singleton in H. lia. }
  split; [exact Hc|].
  apply (proj1 (closed_repeat_keeps_its_queue (-1) 1 [2] 0 _ Hc)).
Defined.

Lemma zero_callback_halts_the_run_witness :
  (m_command_stack (built halting_scenario) = [0]
   /\ heap (built halting_scenario) !! 0 = Some (BridgeCommandCollection [1; 2])
   /\ heap (built halting_scenario) !! 1 = Some (BridgeCommandExecute (invoke "A" 0))
   /\ (invoke "A" 0 (world (built halting_scenario))).1 = 0%Z)
  /\ exists bc',
       EventLoop_start (-1) (timer_callback (-1)) 1 0 (built halting_scenario) = Ok tt bc'
       /\ world bc' = ["A"]
       /\ m_return_value bc' = 0%Z
       /\ m_command_stack bc' = [0]
       /\ heap bc' = <[0 := BridgeCommandCollection [2]]> (heap (built halting_scenario))
       /\ on_exit bc' = []
       /\ (on_exit (built halting_scenario) = [] ->
           forall fuel' io, Ioloop_exit (-1) fuel' io bc' = Ok tt bc').
Proof.
  split; [repeat split|].
  apply (zero_callback_halts_the_run (-1) (built halting_scenario) 0 [] 1 [2]
           (invoke "A" 0) 0 0); reflexivity.
Defined.

Lemma unmatched_loop_guards_witness :
  (1 < length (m_command_stack (built unclosed_scenario))
   /\ start_bridge (-1) 3 (built unclosed_scenario)
      = Throw BridgeUnmatchedLoopException (built unclosed_scenario))
  /\ (length (m_command_stack (BridgeCommands_new 0 ([] : list string))) <= 1
      /\ add_repeat_end (BridgeCommands_new 0 ([] : list string))
         = Throw BridgeUnmatchedLoopException (BridgeCommands_new 0 []))
  /\ (length (m_command_stack (built (repeat_scenario 2))) = 1
      /\ exists bc',
           start_bridge (-1) (S (ticks_left (built (repeat_scenario 2))))
             (built (repeat_scenario 2)) = Ok (m_return_value bc') bc').
Proof.
  split; [|split].
  - split; [simpl; lia|].
    apply (proj1 (unmatched_loop_guards (-1) (built unclosed_scenario))). simpl. lia.
  - split; [simpl; lia|].
    apply (proj1 (proj2 (unmatched_loop_guards (-1) (BridgeCommands_new 0 [])))). simpl. lia.
  - split; [reflexivity|].
    apply (proj2 (proj2 (proj2 (proj2 (unmatched_loop_guards (-1) (built (repeat_scenario 2))))
                   eq_refl)) (repeat_scenario 2) 0%Z []).
    vm_compute. reflexivity.
Defined.

Lemma ExecuteStep_advance_witness :
  heap (built halting_scenario) !! 1 = Some (BridgeCommandExecute (invoke "A" 0))
  /\ execute (-1) 1 (built halting_scenario)
     = Ok (Halt (-1))
         (mkBridgeCommands (heap (built halting_scenario)) [0] 0 [] ["A"] 0
            [before_execute; after_execute 0])
  /\ execute (-1) 2 (built halting_scenario)
     = Ok (ContinueAfter 0)
         (mkBridgeCommands (heap (built halting_scenario)) [0] 1 [] ["C"] 0
            [before_execute; after_execute 1]).
Proof.
  split; [reflexivity|]. split.
  - apply (ExecuteStep_advance (-1) 1 (invoke "A" 0) (built halting_scenario)). reflexivity.
  - apply (ExecuteStep_advance (-1) 2 (invoke "C" 1) (built halting_scenario)). reflexivity.
Defined.

Lemma Collection_advance_fifo_witness :
  (heap (built halting_scenario) !! 0 = Some (BridgeCommandCollection [1; 2])
   /\ m_command_stack (built halting_scenario) = [0])
  /\ timer_callback (-1) (built halting_scenario)
     = execute (-1) 1
         (set_heap (<[0 := BridgeCommandCollection [2]]> (heap (built halting_scenario)))
            (built halting_scenario))
  /\ forall command,
       add_command 0 command (built halting_scenario)
       = Ok tt (set_heap (<[0 := BridgeCommandCollection ([1; 2] ++ [command])]>
                            (heap (built halting_scenario))) (built halting_scenario)).
Proof.
  split; [split; reflexivity|].
  apply (Collection_advance_fifo (-1) 0 [1; 2] [] (built halting_scenario)); reflexivity.
Defined.

Lemma scheduler_driver_witness :
  exists bc',
    queue_next_command (-1) 1 (built halting_scenario) = Ok tt bc'
    /\ (m_command_stack bc' = []
        \/ exists bc0 top rest,
             m_command_stack bc0 = top :: rest
             /\ execute (-1) top bc0 = Ok (Halt (-1)) bc').
Proof.
  eexists. split; [vm_compute; reflexivity|].
  apply (proj2 (proj2 (proj2 (scheduler_driver (-1) 1 (built halting_scenario))))).
  vm_compute. reflexivity.
Defined.

Lemma WaitExitStep_advance_witness :
  heap (built wait_exit_scenario) !! 1 = Some (BridgeCommandWaitExit 5)
  /\ execute (-1) 1 (built wait_exit_scenario)
     = Ok (Halt (-1)) (set_on_exit [5] (built wait_exit_scenario))
  /\ (forall fuel,
        Ioloop_exit (-1) fuel 5 (set_on_exit [5] (built wait_exit_scenario))
        = (queue_next_command (-1) fuel;;; ret tt) (built wait_exit_scenario))
  /\ (forall fuel (bc0 : @BridgeCommands (list string)),
        5 ∉ on_exit bc0 -> Ioloop_exit (-1) fuel 5 bc0 = Ok tt bc0).
Proof.
  split; [reflexivity|].
  apply (WaitExitStep_advance (-1) 1 5 (built wait_exit_scenario)). reflexivity.
Defined.

Lemma exhausted_repeat_skips_enclosing_scope_witness :
  (m_command_stack (built empty_repeat_scenario) = [0]
   /\ heap (built empty_repeat_scenario) !! 0 = Some (BridgeCommandCollection [1; 3])
   /\ heap (built empty_repeat_scenario) !! 1 = Some (BridgeCommandRepeat [2] 7 0)
   /\ (0 <= 0)%Z)
  /\ timer_callback (-1) (built empty_repeat_scenario)
     = Ok (ContinueAfter 7)
         (mkBridgeCommands
            [BridgeCommandCollection [3]; BridgeCommandRepeat [2] 7 (-1);
             BridgeCommandExecute (invoke "B" 1); BridgeCommandExecute (invoke "C" 1)]
            [] 0 [] [] 0 []).
Proof.
  split; [repeat split; lia|].
  apply (exhausted_repeat_skips_enclosing_scope (-1) (built empty_repeat_scenario)
           0 [] 1 [3] [2] 7 0); [reflexivity..|lia].
Defined.

(** * Further properties of the builder and of a run *)

Close Scope string_scope.

(** ** What the builder makes *)

Section Builder.
Context {World : Type}.
Variable kEventLoopTimerDone : Z.
Implicit Types (bc : @BridgeCommands World) (h : list (@BridgeCommand World)).
Implicit Types (o F : @BridgeCommand World) (l c f t : nat) (q : list nat).

Lemma add_step_result o bc t rest F :
  m_command_stack bc = t :: rest -> heap bc !! t = Some F -> is_frame (Some F) ->
  (t0 <- stack_top;; c <- make_shared o;; add_command t0 c) bc
  = Ok tt (set_heap (<[t := with_queue F (queue_of F ++ [length (heap bc)])]>
                       (heap bc ++ [o])) bc).
Proof.
  intros Hs Ht HF. unfold bind, stack_top, make_shared, add_command. rewrite Hs. simpl.
  rewrite lookup_app_l by (by eapply lookup_lt_Some). rewrite Ht.
  by destruct F.
Qed.

Lemma queue_of_with_queue F q : is_frame (Some F) -> queue_of (with_queue F q) = q.
Proof. by destruct F. Qed.

Lemma with_queue_with_queue F q q' : with_queue (with_queue F q) q' = with_queue F q'.
Proof. by destruct F. Qed.

Lemma is_frame_with_queue F q : is_frame (Some F) -> is_frame (Some (with_queue F q)).
Proof. by destruct F. Qed.

(** Steps added one after the other land at the back of the queue of the
    frame on top of the stack, in the order of the calls, at the next free
    addresses. *)
Lemma author_steps (cs : list call) os bc t rest F :
  Forall2 (fun cl o => step_object cl = Some o) cs os ->
  m_command_stack bc = t :: rest -> heap bc !! t = Some F -> is_frame (Some F) ->
  author cs bc
  = Ok tt (set_heap (<[t := with_queue F (queue_of F ++ seq (length (heap bc)) (length os))]>
                       (heap bc ++ os)) bc).
Proof.
  intros Hcs. revert bc F. induction Hcs as [|cl o cs os Hcl Hcs IH]; intros bc F Hs Ht HF.
  - simpl. rewrite !app_nil_r. unfold ret. f_equal.
    destruct bc as [h s rv oe w ck out]. unfold set_heap. simpl in *. f_equal.
    rewrite list_insert_id; [done|]. rewrite Ht. f_equal. by destruct F.
  - pose proof (lookup_lt_Some _ _ _ Ht) as Hlt.
    assert (Hstep : do_call cl bc
             = Ok tt (set_heap (<[t := with_queue F (queue_of F ++ [length (heap bc)])]>
                                  (heap bc ++ [o])) bc)).
    { destruct cl; simplify_eq/=; by eapply add_step_result. }
    cbn [author]. unfold bind at 1. rewrite Hstep.
    rewrite (IH _ (with_queue F (queue_of F ++ [length (heap bc)]))).
    + f_equal. unfold set_heap. simpl. f_equal.
      rewrite length_insert, length_app. simpl.
      rewrite with_queue_with_queue, queue_of_with_queue by done.
      rewrite <- insert_app_l by (rewrite length_app; lia).
      rewrite list_insert_insert_eq. rewrite <- !app_assoc. simpl.
      by rewrite Nat.add_1_r.
    + done.
    + simpl. by rewrite list_lookup_insert_eq by (rewrite length_app; lia).
    + by apply is_frame_with_queue.
Qed.


Lemma author_app (cs1 cs2 : list call) bc :
  author (cs1 ++ cs2) bc = (author cs1;;; author cs2) bc.
Proof.
  revert bc. induction cs1 as [|cl cs1 IH]; intros bc; [done|].
  simpl. unfold bind in *. by destruct (do_call cl bc).
Qed.

Lemma same_outcome_refl bc : same_outcome bc bc.
Proof. by repeat split. Qed.

Lemma same_outcome_trans bc1 bc2 bc3 :
  same_outcome bc1 bc2 -> same_outcome bc2 bc3 -> same_outcome bc1 bc3.
Proof. unfold same_outcome. intros (?&?&?&?&?) (?&?&?&?&?). repeat split; congruence. Qed.

Lemma steps_are_queued_in_order_aux (cs : list call) os bc t rest F :
  Forall2 (fun cl o => step_object cl = Some o) cs os ->
  m_command_stack bc = t :: rest -> heap bc !! t = Some F -> is_frame (Some F) ->
  exists bc',
    author cs bc = Ok tt bc'
    /\ m_command_stack bc' = t :: rest
    /\ heap bc' !! t = Some (with_queue F (queue_of F ++ seq (length (heap bc)) (length os)))
    /\ (forall i o, os !! i = Some o -> heap bc' !! (length (heap bc) + i) = Some o)
    /\ length (heap bc') = length (heap bc) + length os
    /\ (forall l, l < length (heap bc) -> l <> t -> heap bc' !! l = heap bc !! l)
    /\ same_outcome bc bc'.
Proof.
  intros Hcs Hs Ht HF. pose proof (lookup_lt_Some _ _ _ Ht) as Hlt.
  rewrite (author_steps cs os bc t rest F Hcs Hs Ht HF).
  eexists. split; [done|]. simpl. split; [done|]. split; [|split; [|split; [|split]]].
  - apply list_lookup_insert_eq. rewrite length_app. lia.
  - intros i o Hi. rewrite list_lookup_insert_ne by lia.
    rewrite lookup_app_r by lia. by replace (length (heap bc) + i - length (heap bc)) with i by lia.
  - by rewrite length_insert, length_app.
  - intros l Hl Hne. rewrite list_lookup_insert_ne by done. by rewrite lookup_app_l.
  - by repeat split.
Qed.

(** X1. add_execute, add_delay and add_wait_exit put a new object at the
    next free address and its address at the back of the queue of the
    frame on top of the stack; after a sequence of such calls the queue
    holds the new addresses in the order of the calls, each address holds
    the object of its call, and nothing else has changed. *)
Theorem steps_are_queued_in_order (cs : list call) os bc t rest F :
  Forall2 (fun cl o => step_object cl = Some o) cs os ->
  m_command_stack bc = t :: rest -> heap bc !! t = Some F -> is_frame (Some F) ->
  exists bc',
    author cs bc = Ok tt bc'
    /\ m_command_stack bc' = t :: rest
    /\ heap bc' !! t = Some (with_queue F (queue_of F ++ seq (length (heap bc)) (length os)))
    /\ (forall i o, os !! i = Some o -> heap bc' !! (length (heap bc) + i) = Some o)
    /\ length (heap bc') = length (heap bc) + length os
    /\ (forall l, l < length (heap bc) -> l <> t -> heap bc' !! l = heap bc !! l)
    /\ same_outcome bc bc'.
Proof. apply steps_are_queued_in_order_aux. Qed.

Lemma add_repeat_start_result d n bc t rest F :
  m_command_stack bc = t :: rest -> heap bc !! t = Some F -> is_frame (Some F) ->
  add_repeat_start d n bc
  = Ok tt (set_stack (length (heap bc) :: t :: rest)
             (set_heap (<[t := with_queue F (queue_of F ++ [length (heap bc)])]>
                          (heap bc ++ [BridgeCommandRepeat [] d n])) bc)).
Proof.
  intros Hs Ht HF. unfold add_repeat_start, bind, stack_top, make_shared, add_command, stack_push.
  simpl. rewrite Hs. simpl. rewrite lookup_app_l by (by eapply lookup_lt_Some). rewrite Ht.
  destruct F; try done; simpl; by rewrite Hs.
Qed.

(** X2. The calls between add_repeat_start and add_repeat_end go into the
    queue of the new repeat, in order; the frame that was on top gets the
    repeat alone at the back of its queue and is on top again after
    add_repeat_end. *)
Theorem repeat_block_is_built (cs : list call) os d n bc t rest F :
  Forall2 (fun cl o => step_object cl = Some o) cs os ->
  m_command_stack bc = t :: rest -> heap bc !! t = Some F -> is_frame (Some F) ->
  exists bc',
    author (AddRepeatStart d n :: cs ++ [AddRepeatEnd]) bc = Ok tt bc'
    /\ m_command_stack bc' = t :: rest
    /\ heap bc' !! t = Some (with_queue F (queue_of F ++ [length (heap bc)]))
    /\ heap bc' !! length (heap bc)
       = Some (BridgeCommandRepeat (seq (S (length (heap bc))) (length os)) d n)
    /\ (forall i o, os !! i = Some o -> heap bc' !! (S (length (heap bc)) + i) = Some o)
    /\ length (heap bc') = S (length (heap bc)) + length os
    /\ (forall l, l < length (heap bc) -> l <> t -> heap bc' !! l = heap bc !! l)
    /\ same_outcome bc bc'.
Proof.
  intros Hcs Hs Ht HF. pose proof (lookup_lt_Some _ _ _ Ht) as Hlt.
  cbn [author do_call]. unfold bind at 1.
  rewrite (add_repeat_start_result d n bc t rest F Hs Ht HF).
  set (bc1 := set_stack _ _).
  assert (Hlen1 : length (heap bc1) = S (length (heap bc))).
  { simpl. rewrite length_insert, length_app. simpl. lia. }
  assert (Hnew : heap bc1 !! length (heap bc) = Some (BridgeCommandRepeat [] d n)).
  { simpl. rewrite list_lookup_insert_ne by lia. by apply list_lookup_middle. }
  destruct (steps_are_queued_in_order_aux cs os bc1 (length (heap bc)) (t :: rest)
              (BridgeCommandRepeat [] d n) Hcs eq_refl Hnew I)
    as (bc2 & Hau & Hs2 & Htop2 & Hos & Hlen2 & Hold & Hsame).
  rewrite author_app. unfold bind at 1. rewrite Hau.
  cbn [author do_call]. unfold bind, add_repeat_end, stack_pop. rewrite Hs2. simpl.
  eexists. split; [done|]. simpl. split; [done|].
  rewrite Hlen1 in *. simpl in Htop2.
  split; [|split; [done|split; [done|split; [lia|split]]]].
  - rewrite Hold by lia. simpl.
    rewrite list_lookup_insert_eq by (rewrite length_app; lia). done.
  - intros l Hl Hne. rewrite Hold by lia. simpl.
    rewrite list_lookup_insert_ne by done. by rewrite lookup_app_l.
  - exact Hsame.
Qed.


Lemma authoring_top bc :
  authoring bc ->
  exists t rest F, m_command_stack bc = t :: rest /\ heap bc !! t = Some F /\ is_frame (Some F).
Proof.
  intros (_ & Hst & s & root & Hs & _).
  destruct (m_command_stack bc) as [|t rest] eqn:E; [by destruct s|].
  apply Forall_cons in Hst as [Ht _]. destruct (heap bc !! t) as [F|] eqn:EF; [|done].
  by exists t, rest, F.
Qed.

Lemma do_call_depth (cl : call) bc :
  authoring bc ->
  match depth_after [cl] (length (m_command_stack bc)) with
  | Some d => exists bc', do_call cl bc = Ok tt bc'
                          /\ length (m_command_stack bc') = d /\ authoring bc'
  | None => do_call cl bc = Throw BridgeUnmatchedLoopException bc
  end.
Proof.
  intros Ha. destruct (authoring_top bc Ha) as (t & rest & F & Hs & Ht & HF).
  assert (Hstep : forall o, step_object cl = Some o ->
            exists bc', do_call cl bc = Ok tt bc'
                        /\ length (m_command_stack bc') = length (m_command_stack bc)
                        /\ authoring bc').
  { intros o Ho.
    assert (Hd : do_call cl bc = (t0 <- stack_top;; c <- make_shared o;; add_command t0 c) bc)
      by (destruct cl; by simplify_eq/=).
    rewrite (add_step_result o bc t rest F Hs Ht HF) in Hd.
    eexists. split; [exact Hd|]. split; [done|]. by eapply authoring_call. }
  destruct cl as [cb|d n| |us|io]; simpl.
  - by eapply Hstep.
  - rewrite (add_repeat_start_result d n bc t rest F Hs Ht HF).
    eexists. split; [done|]. split; [by simpl; rewrite Hs|].
    eapply (authoring_call (AddRepeatStart d n)); [exact Ha|].
    simpl. by apply add_repeat_start_result.
  - unfold add_repeat_end. destruct (Nat.leb_spec (length (m_command_stack bc)) 1) as [Hle|Hgt].
    + done.
    + unfold stack_pop. rewrite Hs in *. eexists. split; [done|]. split; [done|].
      eapply (authoring_call AddRepeatEnd); [exact Ha|]. simpl.
      unfold add_repeat_end, stack_pop. rewrite Hs.
      destruct (Nat.leb_spec (length (t :: rest)) 1); [lia|done].
  - by eapply Hstep.
  - by eapply Hstep.
Qed.

Lemma depth_after_cons (cl : @call World) cs d :
  depth_after (cl :: cs) d
  = match depth_after [cl] d with Some d' => depth_after cs d' | None => None end.
Proof. destruct cl; simpl; try done. by destruct (d <=? 1). Qed.

Lemma author_depth (cs : list call) bc :
  authoring bc ->
  match depth_after cs (length (m_command_stack bc)) with
  | Some d => exists bc', author cs bc = Ok tt bc'
                          /\ length (m_command_stack bc') = d /\ authoring bc'
  | None => exists bc', author cs bc = Throw BridgeUnmatchedLoopException bc'
                        /\ authoring bc'
  end.
Proof.
  revert bc. induction cs as [|cl cs IH]; intros bc Ha.
  - simpl. by exists bc.
  - rewrite depth_after_cons. pose proof (do_call_depth cl bc Ha) as Hcl.
    cbn [author]. unfold bind.
    destruct (depth_after [cl] (length (m_command_stack bc))) as [d'|].
    + destruct Hcl as (bc1 & -> & <- & Ha1). apply (IH bc1 Ha1).
    + rewrite Hcl. by exists bc.
Qed.

(** X3. For every sequence of builder calls on a new orchestrator: the
    calls return, none of them has undefined behaviour, and the stack ends
    one deeper than the number of repeats left open; or some call is an
    add_repeat_end with no repeat open, and that call throws the
    unmatched-loop exception.  The stack never loses the root. *)
Theorem builder_depth (cs : list call) r0 (w : World) :
  match depth_after cs 1 with
  | Some d =>
      exists bc', author cs (BridgeCommands_new r0 w) = Ok tt bc'
                  /\ length (m_command_stack bc') = d /\ 1 <= d
  | None =>
      exists bc', author cs (BridgeCommands_new r0 w) = Throw BridgeUnmatchedLoopException bc'
                  /\ 1 <= length (m_command_stack bc')
  end.
Proof.
  assert (Hpos : forall bc : @BridgeCommands World,
            authoring bc -> 1 <= length (m_command_stack bc)).
  { intros bc (_ & _ & s & root & -> & _). rewrite length_app. simpl. lia. }
  pose proof (author_depth cs (BridgeCommands_new r0 w) (authoring_new r0 w)) as H.
  simpl in H. destruct (depth_after cs 1) as [d|].
  - destruct H as (bc' & Hau & <- & Ha). exists bc'. auto.
  - destruct H as (bc' & Hau & Ha). exists bc'. auto.
Qed.

Lemma do_call_same_outcome (cl : call) bc : after (do_call cl bc) (same_outcome bc).
Proof.
  assert (Hadd : forall t c bc1, same_outcome bc bc1 -> after (add_command t c bc1) (same_outcome bc)).
  { intros t c bc1 H1. unfold add_command. by destruct (heap bc1 !! t) as [[]|]. }
  assert (Hstep : forall o, after ((t0 <- stack_top;; c <- make_shared o;; add_command t0 c) bc)
                                  (same_outcome bc)).
  { intros o. unfold bind, stack_top, make_shared. destruct (m_command_stack bc); [done|].
    by apply Hadd. }
  destruct cl as [cb|d n| |us|io]; simpl; try apply Hstep.
  - unfold add_repeat_start, bind, make_shared, stack_top. simpl.
    destruct (m_command_stack bc) as [|t s]; [done|].
    pose proof (Hadd t (length (heap bc)) (set_heap (heap bc ++ [BridgeCommandRepeat [] d n]) bc)
                  ltac:(by repeat split)) as Ha.
    destruct (add_command _ _ _) as [[] bc1| | |]; try done.
  - unfold add_repeat_end, throw, stack_pop. destruct (_ <=? 1); [by repeat split|].
    destruct (m_command_stack bc); [done|]. by repeat split.
Qed.

(** X4. Building runs nothing: whatever the calls and the orchestrator,
    and also when a call throws, the result slot, the world of the
    callbacks, the registered exit callbacks, the clock and the output are
    as before. *)
Theorem building_runs_nothing (cs : list call) bc : after (author cs bc) (same_outcome bc).
Proof.
  revert bc. induction cs as [|cl cs IH]; intros bc; [by repeat split|].
  cbn [author]. unfold bind. pose proof (do_call_same_outcome cl bc) as Hcl.
  destruct (do_call cl bc) as [[] bc1| | |]; try done.
  pose proof (IH bc1) as H1. destruct (author cs bc1); try done;
    by eapply same_outcome_trans.
Qed.

End Builder.

(** ** What a run does with the callbacks *)

Section Run.
Context {World : Type}.
Variable kEventLoopTimerDone : Z.
Implicit Types (bc : @BridgeCommands World) (h : list (@BridgeCommand World)).
Implicit Types (o F : @BridgeCommand World) (l c f t : nat) (q qs : list nat).
Implicit Types (cbs : list (@bridge_func_t World)).

Local Abbreviation loop := (EventLoop_start kEventLoopTimerDone (timer_callback kEventLoopTimerDone)).

(** The callbacks of the Collection on top of the stack run in the order
    of its queue.  When one returns zero the loop returns; otherwise the
    Collection is popped and the loop goes on with the stack below. *)
Lemma run_callbacks cbs qs bc t rest fuel d :
  kEventLoopTimerDone <> 0%Z ->
  m_command_stack bc = t :: rest ->
  heap bc !! t = Some (BridgeCommandCollection qs) ->
  Forall2 (fun c cb => heap bc !! c = Some (BridgeCommandExecute cb)) qs cbs ->
  exists bc',
    (m_return_value bc', world bc') = invoke_all cbs (m_return_value bc) (world bc)
    /\ on_exit bc' = on_exit bc
    /\ (forall l, l <> t -> heap bc' !! l = heap bc !! l)
    /\ if zero_returned cbs (world bc)
       then loop (length cbs + 1 + fuel) d bc = Ok tt bc' /\ m_command_stack bc' = t :: rest
       else loop (length cbs + 1 + fuel) d bc = loop fuel 0%Z bc'
            /\ m_command_stack bc' = rest
            /\ heap bc' !! t = Some (BridgeCommandCollection []).
Proof.
  intros Hk. revert qs bc d. induction cbs as [|cb cbs IH]; intros qs bc d Hs Ht Hq.
  - apply Forall2_nil_inv_r in Hq as ->.
    eexists. split; [|split; [|split]]; cycle 3.
    + simpl. split; [|split].
      * apply EventLoop_start_rearm; [|done].
        by rewrite (Collection_advance _ t [] rest (set_clock _ bc) Ht Hs).
      * done.
      * done.
    + done.
    + done.
    + done.
  - apply Forall2_cons_inv_r in Hq as (c & qs' & Hc & Hq & ->).
    assert (Hne : t <> c) by (intros ->; congruence).
    pose proof (lookup_lt_Some _ _ _ Ht) as Hlt.
    set (bc0 := set_clock (clock bc + Z.max 0 d) bc).
    set (bc1 := set_heap (<[t := BridgeCommandCollection qs']> (heap bc0)) bc0).
    assert (Htick : timer_callback kEventLoopTimerDone bc0
              = Ok (if ((cb (world bc)).1 =? 0)%Z then kEventLoopTimerDone else 0%Z)
                  (printf (after_execute (cb (world bc)).1)
                     (set_return_value (cb (world bc)).1
                        (set_world (cb (world bc)).2 (printf before_execute bc1))))).
    { rewrite (Collection_advance _ t _ rest bc0 Ht Hs).
      by rewrite (Execute_advance _ c cb bc1) by (by simpl; rewrite list_lookup_insert_ne). }
    cbn [invoke_all zero_returned]. destruct (cb (world bc)) as [r w'] eqn:Ecb.
    simpl in Htick. destruct (Z.eqb_spec r 0) as [->|Hr].
    + eexists. split; [|split; [|split; [|split]]]; cycle 3.
      * change (length (cb :: cbs) + 1 + fuel) with (S (length cbs + 1 + fuel)).
        apply EventLoop_start_done. exact Htick.
      * done.
      * done.
      * done.
      * intros l Hl. simpl. by rewrite list_lookup_insert_ne.
    + set (bc2 := printf _ _) in Htick.
      destruct (IH qs' bc2 0%Z) as (bc' & Hres & Hex & Hh & Hrun).
      * done.
      * simpl. by apply list_lookup_insert_eq.
      * eapply Forall2_impl; [exact Hq|]. simpl. intros x y Hx.
        rewrite list_lookup_insert_ne; [done|]. intros ->. congruence.
      * exists bc'. split; [exact Hres|]. split; [by rewrite Hex|]. split.
        { intros l Hl. rewrite Hh by done. simpl. by rewrite list_lookup_insert_ne. }
        change (world bc2) with w' in Hrun.
        change (length (cb :: cbs) + 1 + fuel) with (S (length cbs + 1 + fuel)).
        rewrite (EventLoop_start_rearm _ _ _ d bc _ _ Htick) by done.
        exact Hrun.
Qed.


Lemma step_objects_of_executes cbs :
  Forall2 (fun (cl : call) o => step_object cl = Some o)
          (AddExecute <$> cbs) (BridgeCommandExecute <$> cbs).
Proof. induction cbs; constructor; done. Qed.

(** X5. A program of callbacks only, built on a new orchestrator and
    started: the callbacks are invoked in the order they were added, up to
    the first that returns zero, and start_bridge returns what the last
    one invoked returned.  When none returns zero the stack ends empty,
    and the orchestrator cannot be started again: start_bridge throws. *)
Theorem flat_program_runs_in_order cbs r0 (w : World) fuel :
  kEventLoopTimerDone <> 0%Z ->
  exists bc0 bc',
    author (AddExecute <$> cbs) (BridgeCommands_new r0 w) = Ok tt bc0
    /\ start_bridge kEventLoopTimerDone (length cbs + 2 + fuel) bc0
       = Ok (invoke_all cbs r0 w).1 bc'
    /\ world bc' = (invoke_all cbs r0 w).2
    /\ if zero_returned cbs w then m_command_stack bc' = [0]
       else m_command_stack bc' = []
            /\ forall fuel', start_bridge kEventLoopTimerDone fuel' bc'
                             = Throw BridgeUnmatchedLoopException bc'.
Proof.
  intros Hk.
  destruct (steps_are_queued_in_order_aux (AddExecute <$> cbs) (BridgeCommandExecute <$> cbs)
              (BridgeCommands_new r0 w) 0 [] (BridgeCommandCollection [])
              (step_objects_of_executes cbs) eq_refl eq_refl I)
    as (bc0 & Hau & Hs & Htop & Hos & Hlen & _ & (Hrv & Hw & _)).
  simpl in Htop, Hos. rewrite length_fmap in Htop.
  assert (Hq : Forall2 (fun c cb => heap bc0 !! c = Some (BridgeCommandExecute cb))
                 (seq 1 (length cbs)) cbs).
  { apply Forall2_same_length_lookup. split; [by rewrite length_seq|].
    intros i c cb Hi Hcb. apply lookup_seq in Hi as [-> _].
    apply Hos. by rewrite list_lookup_fmap, Hcb. }
  destruct (run_callbacks cbs _ bc0 0 [] (S fuel) 0%Z Hk Hs Htop Hq)
    as (bc1 & Hres & _ & _ & Hrun).
  rewrite Hrv, Hw in Hres. simpl in Hres. rewrite Hw in Hrun.
  change (world (BridgeCommands_new r0 w)) with w in Hrun.
  replace (length cbs + 1 + S fuel) with (length cbs + 2 + fuel) in Hrun by lia.
  exists bc0. unfold start_bridge, queue_next_command, bind, get_return_value.
  rewrite Hs. simpl.
  destruct (zero_returned cbs w).
  - destruct Hrun as [-> Hs1]. exists bc1. rewrite <- Hres. done.
  - destruct Hrun as (-> & Hs1 & _).
    exists (set_clock (clock bc1 + Z.max 0 0) bc1).
    rewrite (EventLoop_start_done _ _ _ 0%Z bc1 (set_clock (clock bc1 + Z.max 0 0) bc1))
      by (by unfold timer_callback; simpl; rewrite Hs1).
    simpl. rewrite <- Hres. simpl. split; [done|]. split; [done|]. split; [done|].
    split; [done|]. intros fuel'. by rewrite Hs1.
Qed.


End Run.

(** ** What a run keeps *)

Section Invariants.
Context {World : Type}.
Variable kEventLoopTimerDone : Z.
Implicit Types (bc : @BridgeCommands World) (h : list (@BridgeCommand World)).
Implicit Types (o F : @BridgeCommand World) (l c f t : nat) (q qs : list nat).

Local Abbreviation loop := (EventLoop_start kEventLoopTimerDone (timer_callback kEventLoopTimerDone)).

(** *** A step is never changed *)

Lemma kept_insert l o t o' bc :
  heap bc !! l = Some o -> t <> l ->
  heap (set_heap (<[t := o']> (heap bc)) bc) !! l = Some o.
Proof. intros Hl Hne. simpl. by rewrite list_lookup_insert_ne. Qed.

Lemma kept_app l o o' bc :
  heap bc !! l = Some o -> heap (set_heap (heap bc ++ [o']) bc) !! l = Some o.
Proof. intros Hl. simpl. by rewrite lookup_app_l by (by eapply lookup_lt_Some). Qed.

Lemma execute_rec_kept l o fuel this bc :
  is_leaf o -> heap bc !! l = Some o ->
  after (execute_rec kEventLoopTimerDone fuel this bc) (fun bc' => heap bc' !! l = Some o).
Proof.
  intros Ho. revert this bc. induction fuel as [|fuel IH]; intros this bc Hl; [done|]. simpl.
  destruct (heap bc !! this) as [[cb|us|[|c q']|q0 d0 n0|io]|] eqn:E; try done.
  - unfold BridgeCommandExecute_execute. simpl. by destruct (cb (world bc)).
  - unfold bind, stack_pop, ret. by destruct (m_command_stack bc).
  - apply IH. apply kept_insert; [done|]. intros ->. rewrite Hl in E. by simplify_eq.
  - assert (Hne : this <> l) by (intros ->; rewrite Hl in E; by simplify_eq).
    unfold BridgeCommandRepeat_execute, bind, stack_pop, make_shared, stack_push, ret.
    destruct (n0 <=? 0)%Z.
    + cbn [m_command_stack set_heap]. destruct (m_command_stack bc); [done|].
      simpl. by rewrite list_lookup_insert_ne.
    + simpl. rewrite lookup_app_l by (rewrite length_insert; by eapply lookup_lt_Some).
      by rewrite list_lookup_insert_ne.
Qed.

Lemma loop_kept l o fuel delay bc :
  is_leaf o -> heap bc !! l = Some o ->
  after (loop fuel delay bc) (fun bc' => heap bc' !! l = Some o).
Proof.
  intros Ho. revert delay bc. induction fuel as [|fuel IH]; intros delay bc Hl; [done|].
  rewrite EventLoop_start_S.
  assert (Ht : after (timer_callback kEventLoopTimerDone
                        (set_clock (clock bc + Z.max 0 delay) bc))
                     (fun bc' => heap bc' !! l = Some o)).
  { unfold timer_callback. cbn [m_command_stack set_clock].
    destruct (m_command_stack bc); [done|]. by apply execute_rec_kept. }
  destruct (timer_callback _ _) as [r bc'| | |]; try done.
  destruct (r =? kEventLoopTimerDone)%Z; [done|]. by apply IH.
Qed.

Lemma fire_on_exit_kept l o fuel registered bc :
  is_leaf o -> heap bc !! l = Some o ->
  after (fire_on_exit kEventLoopTimerDone fuel registered bc) (fun bc' => heap bc' !! l = Some o).
Proof.
  intros Ho. revert bc. induction registered as [|k IH]; intros bc Hl; [done|]. simpl.
  apply after_bind; [by apply loop_kept|]. intros _ bc' Hl'. by apply IH.
Qed.

Lemma do_call_kept l o (cl : call) bc :
  is_leaf o -> heap bc !! l = Some o ->
  after (do_call cl bc) (fun bc' => heap bc' !! l = Some o).
Proof.
  intros Ho Hl.
  assert (Hadd : forall o' t, after (add_command t (length (heap bc))
                                       (set_heap (heap bc ++ [o']) bc))
                                    (fun bc' => heap bc' !! l = Some o)).
  { intros o' t. unfold add_command.
    pose proof (kept_app l o o' bc Hl) as Hl1. set (bc1 := set_heap _ bc) in *.
    destruct (heap bc1 !! t) as [[| |q0|q0 d0 n0|]|] eqn:E; try done;
      (apply (kept_insert l o t _ bc1 Hl1); intros ->; rewrite Hl1 in E; by simplify_eq). }
  assert (Hstep : forall o', after ((t <- stack_top;; c <- make_shared o';; add_command t c) bc)
                                   (fun bc' => heap bc' !! l = Some o)).
  { intros o'. unfold bind, stack_top, make_shared.
    destruct (m_command_stack bc); [done|]. apply Hadd. }
  destruct cl as [cb|delay count| |usecs|io]; simpl; try apply Hstep.
  - unfold add_repeat_start, bind, make_shared, stack_top. simpl.
    destruct (m_command_stack bc) as [|t s]; [done|].
    pose proof (Hadd (BridgeCommandRepeat [] delay count) t) as Ha.
    by destruct (add_command _ _ _) as [[] bc1| | |].
  - unfold add_repeat_end, throw, stack_pop. destruct (_ <=? 1); [done|].
    by destruct (m_command_stack bc).
Qed.

Lemma happen_kept l o (e : event) bc :
  is_leaf o -> heap bc !! l = Some o ->
  after (happen kEventLoopTimerDone e bc) (fun bc' => heap bc' !! l = Some o).
Proof.
  intros Ho Hl. destruct e as [cl| |fuel|fuel io]; simpl.
  - by apply do_call_kept.
  - apply after_bind; [|by intros]. unfold timer_callback.
    destruct (m_command_stack bc); [done|]. by apply execute_rec_kept.
  - apply after_bind; [|by intros]. unfold start_bridge, throw.
    destruct (negb _); [done|]. apply after_bind; [by apply loop_kept|by intros].
  - unfold Ioloop_exit. by apply fire_on_exit_kept.
Qed.

(** X7. A step, once made, is never changed: whatever calls of the
    builder, ticks, starts and exit signals follow, an Execute keeps its
    callback, a Delay its duration and a WaitExit its handle, at the same
    address. *)
Theorem steps_are_never_changed l o (es : list event) bc :
  is_leaf o -> heap bc !! l = Some o ->
  after (happens kEventLoopTimerDone es bc) (fun bc' => heap bc' !! l = Some o).
Proof.
  intros Ho. revert bc. induction es as [|e es IH]; intros bc Hl; [done|]. simpl.
  pose proof (happen_kept l o e bc Ho Hl) as He.
  destruct (happen _ e bc); try done; by apply IH.
Qed.

(** *** Exit callbacks *)

Lemma execute_rec_on_exit fuel this bc r bc' :
  execute_rec kEventLoopTimerDone fuel this bc = Ok r bc' ->
  on_exit bc' = on_exit bc
  \/ (r = kEventLoopTimerDone /\ exists io, on_exit bc' = on_exit bc ++ [io]).
Proof.
  revert this bc. induction fuel as [|fuel IH]; intros this bc; [done|]. simpl.
  destruct (heap bc !! this) as [[cb|us|[|c q']|q0 d0 n0|io]|] eqn:E; try done.
  - unfold BridgeCommandExecute_execute. simpl. destruct (cb (world bc)).
    intros [= <- <-]. by left.
  - intros [= <- <-]. by left.
  - unfold bind, stack_pop, ret. destruct (m_command_stack bc); [done|].
    intros [= <- <-]. by left.
  - intros H. by apply IH in H.
  - unfold BridgeCommandRepeat_execute, bind, stack_pop, make_shared, stack_push, ret.
    destruct (n0 <=? 0)%Z.
    + cbn [m_command_stack set_heap]. destruct (m_command_stack bc); [done|].
      intros [= <- <-]. by left.
    + intros [= <- <-]. by left.
  - unfold BridgeCommandWaitExit_execute. intros [= <- <-]. right. eauto.
Qed.

Lemma loop_on_exit fuel delay bc bc' :
  loop fuel delay bc = Ok tt bc' ->
  on_exit bc' = on_exit bc \/ exists io, on_exit bc' = on_exit bc ++ [io].
Proof.
  revert delay bc. induction fuel as [|fuel IH]; intros delay bc; [done|].
  rewrite EventLoop_start_S. set (bc0 := set_clock _ bc).
  destruct (timer_callback _ bc0) as [r bc1| | |] eqn:E; try done.
  assert (H1 : on_exit bc1 = on_exit bc
               \/ (r = kEventLoopTimerDone /\ exists io, on_exit bc1 = on_exit bc ++ [io])).
  { unfold timer_callback in E. destruct (m_command_stack bc0); [by left; simplify_eq|].
    by apply execute_rec_on_exit in E. }
  destruct (Z.eqb_spec r kEventLoopTimerDone) as [->|Hne].
  - intros [= <-]. destruct H1 as [?|[_ ?]]; auto.
  - intros H. apply IH in H. destruct H1 as [H1|[? _]]; [|done]. by rewrite H1 in H.
Qed.

(** X8. A run registers at most one exit callback, and the tick that
    registers it is the last of the run: when start_bridge returns, the
    registered callbacks are those there were before, or those and one
    more.  Started with none, a run leaves at most one, so one exit signal
    resumes it at most once. *)
Theorem run_registers_at_most_one_exit_callback fuel bc v bc' :
  start_bridge kEventLoopTimerDone fuel bc = Ok v bc' ->
  (on_exit bc' = on_exit bc \/ exists io, on_exit bc' = on_exit bc ++ [io])
  /\ (on_exit bc = [] -> length (on_exit bc') <= 1).
Proof.
  unfold start_bridge, throw, bind, queue_next_command, get_return_value.
  destruct (negb _); [done|].
  destruct (loop fuel 0%Z bc) as [[] bc1| | |] eqn:E; try done.
  intros [= <- <-]. apply loop_on_exit in E. split; [done|].
  intros He. rewrite He in E. destruct E as [->|[io ->]]; simpl; lia.
Qed.

(** *** The stack while a built program runs *)

Lemma timer_callback_running bc :
  running bc ->
  exists r bc', timer_callback kEventLoopTimerDone bc = Ok r bc'
    /\ running bc' /\ ticks_left bc' <= ticks_left bc.
Proof.
  intros Hrun. destruct (m_command_stack bc) as [|top rest] eqn:Hs.
  - exists kEventLoopTimerDone, bc. unfold timer_callback. by rewrite Hs.
  - destruct (running_tick kEventLoopTimerDone bc top rest Hrun Hs) as (r & bc' & ? & ? & ?).
    exists r, bc'. split; [done|]. split; [done|lia].
Qed.

Lemma running_loop fuel delay bc :
  running bc -> ticks_left bc < fuel ->
  exists bc', loop fuel delay bc = Ok tt bc'
    /\ running bc' /\ ticks_left bc' <= ticks_left bc.
Proof.
  revert delay bc. induction fuel as [|fuel IH]; intros delay bc Hrun Hf; [lia|].
  rewrite EventLoop_start_S. set (bc0 := set_clock _ bc).
  assert (Hrun0 : running bc0) by (by eapply running_fields; [..|exact Hrun]).
  assert (Ht0 : ticks_left bc0 = ticks_left bc) by (by apply ticks_left_fields).
  destruct (m_command_stack bc0) as [|top rest] eqn:Hs.
  - unfold timer_callback. rewrite Hs, Z.eqb_refl. exists bc0. split; [done|]. split; [done|lia].
  - destruct (running_tick kEventLoopTimerDone _ _ _ Hrun0 Hs) as (r & bc' & -> & Hrun' & Hlt).
    destruct (r =? kEventLoopTimerDone)%Z.
    + exists bc'. split; [done|]. split; [done|lia].
    + destruct (IH r bc' Hrun') as (bc'' & ? & ? & ?); [lia|].
      exists bc''. split; [done|]. split; [done|lia].
Qed.

Lemma running_fire_on_exit fuel registered bc :
  running bc -> ticks_left bc < fuel ->
  exists bc', fire_on_exit kEventLoopTimerDone fuel registered bc = Ok tt bc'
    /\ running bc' /\ ticks_left bc' <= ticks_left bc.
Proof.
  revert bc. induction registered as [|n IH]; intros bc Hrun Hf.
  - exists bc. split; [done|]. split; [done|lia].
  - destruct (running_loop fuel 0%Z bc Hrun Hf) as (bc1 & Hl & Hrun1 & Hle).
    destruct (IH bc1 Hrun1) as (bc' & ? & ? & ?); [lia|].
    exists bc'. split; [|split; [done|lia]].
    simpl. unfold bind, queue_next_command. by rewrite Hl.
Qed.

Lemma running_happen ticks (e : event) bc :
  running bc -> ticks_left bc <= ticks -> runs_within ticks e ->
  exists bc', (happen kEventLoopTimerDone e bc = Ok tt bc'
               \/ happen kEventLoopTimerDone e bc = Throw BridgeUnmatchedLoopException bc')
    /\ running bc' /\ ticks_left bc' <= ticks.
Proof.
  intros Hrun Hle He. destruct e as [cl| |fuel|fuel io]; simpl in *; [done|..].
  - destruct (timer_callback_running bc Hrun) as (r & bc' & Ht & Hrun' & Hle').
    exists bc'. split; [|split; [done|lia]]. left. unfold bind. by rewrite Ht.
  - unfold start_bridge, throw, bind. destruct (negb _).
    + exists bc. split; [by right|done].
    + destruct (running_loop fuel 0%Z bc Hrun) as (bc' & Hl & Hrun' & Hle'); [lia|].
      exists bc'. split; [|split; [done|lia]]. left. unfold queue_next_command. by rewrite Hl.
  - unfold Ioloop_exit. set (bc0 := set_on_exit _ bc).
    destruct (running_fire_on_exit fuel (length (filter (λ r, r = io) (on_exit bc))) bc0)
      as (bc' & Hf & Hrun' & Hle').
    + by eapply running_fields; [..|exact Hrun].
    + rewrite (ticks_left_fields bc bc0) by done. lia.
    + exists bc'. split; [by left|]. split; [done|].
      rewrite (ticks_left_fields bc bc0) in Hle' by done. lia.
Qed.

(** X9. A program built on a new orchestrator, with its repeats closed,
    never goes wrong when it runs: whatever starts, ticks and exit signals
    follow one another, every one of them returns (or is a start_bridge
    that throws BridgeUnmatchedLoopException), none takes the top of an
    empty stack or pops one, and the stack holds plain Collections only,
    each there once: no repeat is ever on the stack of such a run. *)
Theorem built_program_never_goes_wrong (cs : list call) r0 (w : World) bc (es : list event) :
  author cs (BridgeCommands_new r0 w) = Ok tt bc ->
  length (m_command_stack bc) = 1 ->
  Forall (runs_within (ticks_left bc)) es ->
  exists bc',
    happens kEventLoopTimerDone es bc = Ok tt bc'
    /\ Forall (fun f => is_collection (heap bc' !! f)) (m_command_stack bc')
    /\ NoDup (m_command_stack bc').
Proof.
  intros Hau Hlen.
  assert (Hrun : running bc).
  { apply authoring_running; [|done]. eapply authoring_author; [|done]. apply authoring_new. }
  clear Hau Hlen. assert (Hle : ticks_left bc <= ticks_left bc) by lia.
  revert Hle. generalize (ticks_left bc) at 2 3. intros ticks Hle Hes. revert bc Hrun Hle.
  induction Hes as [|e es He Hes IH]; intros bc Hrun Hle.
  - exists bc. by destruct Hrun as (_ & ? & ?).
  - destruct (running_happen ticks e bc Hrun Hle He) as (bc1 & Hh & Hrun1 & Hle1).
    destruct (IH bc1 Hrun1 Hle1) as (bc' & Hh' & Hf).
    exists bc'. split; [|done]. simpl. by destruct Hh as [-> | ->].
Qed.

End Invariants.

(** ** Suspending, resuming and starting again *)

Section Resume.
Context {World : Type}.
Variable kEventLoopTimerDone : Z.
Implicit Types (bc : @BridgeCommands World) (h : list (@BridgeCommand World)).
Implicit Types (o F : @BridgeCommand World) (l c f t : nat) (q qs : list nat).
Implicit Types (cbs : list (@bridge_func_t World)).

Local Abbreviation loop := (EventLoop_start kEventLoopTimerDone (timer_callback kEventLoopTimerDone)).

(** The callbacks at the front of the queue of the Collection on top of
    the stack, none returning zero: they run in order and the loop goes on
    with the rest of the queue. *)
Lemma run_prefix cbs qs q2 bc t rest fuel d :
  kEventLoopTimerDone <> 0%Z ->
  m_command_stack bc = t :: rest ->
  heap bc !! t = Some (BridgeCommandCollection (qs ++ q2)) ->
  Forall2 (fun c cb => heap bc !! c = Some (BridgeCommandExecute cb)) qs cbs ->
  zero_returned cbs (world bc) = false ->
  exists bc' d',
    loop (length cbs + fuel) d bc = loop fuel d' bc'
    /\ (m_return_value bc', world bc') = invoke_all cbs (m_return_value bc) (world bc)
    /\ on_exit bc' = on_exit bc
    /\ m_command_stack bc' = t :: rest
    /\ heap bc' !! t = Some (BridgeCommandCollection q2)
    /\ (forall l, l <> t -> heap bc' !! l = heap bc !! l).
Proof.
  intros Hk. revert qs bc d. induction cbs as [|cb cbs IH]; intros qs bc d Hs Ht Hq Hz.
  - apply Forall2_nil_inv_r in Hq as ->. by exists bc, d.
  - apply Forall2_cons_inv_r in Hq as (c & qs' & Hc & Hq & ->).
    assert (Hne : t <> c) by (intros ->; congruence).
    pose proof (lookup_lt_Some _ _ _ Ht) as Hlt.
    set (bc0 := set_clock (clock bc + Z.max 0 d) bc).
    set (bc1 := set_heap (<[t := BridgeCommandCollection (qs' ++ q2)]> (heap bc0)) bc0).
    assert (Htick : timer_callback kEventLoopTimerDone bc0
              = Ok (if ((cb (world bc)).1 =? 0)%Z then kEventLoopTimerDone else 0%Z)
                  (printf (after_execute (cb (world bc)).1)
                     (set_return_value (cb (world bc)).1
                        (set_world (cb (world bc)).2 (printf before_execute bc1))))).
    { rewrite (Collection_advance _ t _ rest bc0 Ht Hs). simpl.
      by rewrite (Execute_advance _ c cb bc1) by (by simpl; rewrite list_lookup_insert_ne). }
    cbn [invoke_all zero_returned] in *. destruct (cb (world bc)) as [r w'] eqn:Ecb.
    simpl in Htick. destruct (Z.eqb_spec r 0) as [->|Hr]; [done|].
    set (bc2 := printf _ _) in Htick.
    destruct (IH qs' bc2 0%Z) as (bc' & d' & Hrun & Hres & Hex & Hs' & Ht' & Hh).
    + done.
    + simpl. by apply list_lookup_insert_eq.
    + eapply Forall2_impl; [exact Hq|]. simpl. intros x y Hx.
      rewrite list_lookup_insert_ne; [done|]. intros ->. congruence.
    + done.
    + exists bc', d'. split; [|split; [exact Hres|split; [by rewrite Hex|split; [done|split; [done|]]]]].
      * change (length (cb :: cbs) + fuel) with (S (length cbs + fuel)).
        by rewrite (EventLoop_start_rearm _ _ _ d bc _ _ Htick).
      * intros l Hl. rewrite Hh by done. simpl. by rewrite list_lookup_insert_ne.
Qed.

(** The whole queue of the root, run to the end of the loop. *)
Lemma run_root cbs qs bc fuel d t :
  kEventLoopTimerDone <> 0%Z ->
  m_command_stack bc = [t] ->
  heap bc !! t = Some (BridgeCommandCollection qs) ->
  Forall2 (fun c cb => heap bc !! c = Some (BridgeCommandExecute cb)) qs cbs ->
  exists bc',
    loop (length cbs + 2 + fuel) d bc = Ok tt bc'
    /\ (m_return_value bc', world bc') = invoke_all cbs (m_return_value bc) (world bc)
    /\ on_exit bc' = on_exit bc.
Proof.
  intros Hk Hs Ht Hq.
  destruct (run_callbacks kEventLoopTimerDone cbs qs bc t [] (S fuel) d Hk Hs Ht Hq)
    as (bc1 & Hres & Hex & _ & Hrun).
  replace (length cbs + 1 + S fuel) with (length cbs + 2 + fuel) in Hrun by lia.
  destruct (zero_returned cbs (world bc)).
  - destruct Hrun as [-> _]. by exists bc1.
  - destruct Hrun as (-> & Hs1 & _).
    exists (set_clock (clock bc1 + Z.max 0 0) bc1). split; [|done].
    apply EventLoop_start_done. unfold timer_callback. simpl. by rewrite Hs1.
Qed.

Lemma authored_flat (cs : list call) os r0 (w : World) :
  Forall2 (fun cl o => step_object cl = Some o) cs os ->
  exists bc0,
    author cs (BridgeCommands_new r0 w) = Ok tt bc0
    /\ m_command_stack bc0 = [0]
    /\ heap bc0 !! 0 = Some (BridgeCommandCollection (seq 1 (length os)))
    /\ (forall i o, os !! i = Some o -> heap bc0 !! (S i) = Some o)
    /\ m_return_value bc0 = r0 /\ world bc0 = w /\ on_exit bc0 = [].
Proof.
  intros Hcs.
  destruct (steps_are_queued_in_order_aux cs os (BridgeCommands_new r0 w) 0 []
              (BridgeCommandCollection []) Hcs eq_refl eq_refl I)
    as (bc0 & Hau & Hs & Htop & Hos & _ & _ & (Hrv & Hw & Hex & _)).
  exists bc0. by repeat split.
Qed.

Lemma executes_at cbs h base :
  (forall i cb, cbs !! i = Some cb -> h !! (base + i) = Some (BridgeCommandExecute cb)) ->
  Forall2 (fun c cb => h !! c = Some (BridgeCommandExecute cb)) (seq base (length cbs)) cbs.
Proof.
  intros H. apply Forall2_same_length_lookup. split; [by rewrite length_seq|].
  intros i c cb Hi Hcb. apply lookup_seq in Hi as [-> _]. by apply H.
Qed.

(** X10. A program of callbacks, a wait for the exit of a collaborator,
    and more callbacks, built on a new orchestrator.  Started, it invokes
    the callbacks before the wait (none returning zero), registers one exit
    callback on the handle and stops: start_bridge returns what the last
    callback returned.  A signal on another handle does nothing.  The
    signal on the handle uses the registration up and the run goes on with
    the callbacks after the wait, in order, up to the first that returns
    zero. *)
Theorem wait_exit_suspends_and_resumes cbs1 io cbs2 r0 (w : World) fuel fuel' :
  kEventLoopTimerDone <> 0%Z ->
  zero_returned cbs1 w = false ->
  exists bc0 bc1 bc2,
    author ((AddExecute <$> cbs1) ++ AddWaitExit io :: (AddExecute <$> cbs2))
           (BridgeCommands_new r0 w) = Ok tt bc0
    /\ start_bridge kEventLoopTimerDone (length cbs1 + 1 + fuel) bc0
       = Ok (invoke_all cbs1 r0 w).1 bc1
    /\ world bc1 = (invoke_all cbs1 r0 w).2
    /\ on_exit bc1 = [io]
    /\ (forall io' n, io' <> io -> Ioloop_exit kEventLoopTimerDone n io' bc1 = Ok tt bc1)
    /\ Ioloop_exit kEventLoopTimerDone (length cbs2 + 2 + fuel') io bc1 = Ok tt bc2
    /\ (m_return_value bc2, world bc2)
       = invoke_all cbs2 (invoke_all cbs1 r0 w).1 (invoke_all cbs1 r0 w).2
    /\ on_exit bc2 = [].
Proof.
  intros Hk Hz.
  set (os := (BridgeCommandExecute <$> cbs1) ++ BridgeCommandWaitExit io
               :: (BridgeCommandExecute <$> cbs2)).
  destruct (authored_flat ((AddExecute <$> cbs1) ++ AddWaitExit io :: (AddExecute <$> cbs2))
              os r0 w) as (bc0 & Hau & Hs & Htop & Hos & Hrv & Hw & Hex).
  { apply Forall2_app; [apply step_objects_of_executes|].
    constructor; [done|apply step_objects_of_executes]. }
  assert (Hlen : length os = length cbs1 + S (length cbs2)).
  { unfold os. rewrite length_app. simpl. by rewrite !length_fmap. }
  rewrite Hlen, seq_app in Htop. simpl in Htop.
  (* the callbacks before the wait *)
  destruct (run_prefix cbs1 (seq 1 (length cbs1)) _ bc0 0 [] (S fuel) 0%Z Hk Hs Htop)
    as (bc' & d' & Hrun & Hres & Hex' & Hs' & Ht' & Hh).
  { apply executes_at. intros i cb Hcb. apply Hos. unfold os.
    rewrite lookup_app_l by (rewrite length_fmap; by eapply lookup_lt_Some).
    by rewrite list_lookup_fmap, Hcb. }
  { by rewrite Hw. }
  rewrite Hrv, Hw in Hres.
  assert (Hwait : heap bc' !! (S (length cbs1)) = Some (BridgeCommandWaitExit io)).
  { rewrite Hh by done. apply Hos. unfold os.
    rewrite lookup_app_r by (by rewrite length_fmap). by rewrite length_fmap, Nat.sub_diag. }
  (* the tick of the wait *)
  set (bcw := set_clock (clock bc' + Z.max 0 d') bc').
  set (bcq := set_heap (<[0 := BridgeCommandCollection (seq (S (1 + length cbs1)) (length cbs2))]>
                          (heap bcw)) bcw).
  set (bc1 := set_on_exit (on_exit bcq ++ [io]) bcq).
  assert (Htick : timer_callback kEventLoopTimerDone bcw = Ok kEventLoopTimerDone bc1).
  { rewrite (Collection_advance _ 0 _ [] bcw Ht' Hs').
    replace (1 + length cbs1) with (S (length cbs1)) by done.
    by rewrite (WaitExit_advance _ (S (length cbs1)) io bcq)
      by (by simpl; rewrite list_lookup_insert_ne). }
  assert (Hex1 : on_exit bc1 = [io]) by (simpl; by rewrite Hex', Hex).
  assert (Hlt : 0 < length (heap bc')) by (by eapply lookup_lt_Some).
  (* the callbacks after the wait *)
  set (bc1' := set_on_exit [] bc1).
  destruct (run_root cbs2 (seq (S (1 + length cbs1)) (length cbs2)) bc1' fuel' 0%Z 0 Hk)
    as (bc2 & Hrun2 & Hres2 & Hex2).
  { done. }
  { simpl. by apply list_lookup_insert_eq. }
  { apply executes_at. intros i cb Hcb. simpl.
    rewrite list_lookup_insert_ne by done. rewrite Hh by done.
    replace (S (S (length cbs1 + i))) with (S (length cbs1 + S i)) by lia.
    apply Hos. unfold os.
    rewrite lookup_app_r by (rewrite length_fmap; lia).
    rewrite length_fmap. replace (length cbs1 + S i - length cbs1) with (S i) by lia.
    simpl. by rewrite list_lookup_fmap, Hcb. }
  exists bc0, bc1, bc2. split; [done|]. split; [|split; [|split; [done|split; [|split; [|split]]]]].
  - unfold start_bridge, queue_next_command, bind, get_return_value. rewrite Hs. simpl.
    replace (length cbs1 + 1 + fuel) with (length cbs1 + S fuel) by lia.
    rewrite Hrun, (EventLoop_start_done _ _ _ d' bc' bc1 Htick). simpl.
    by rewrite <- Hres.
  - simpl. by rewrite <- Hres.
  - intros io' n Hne. unfold Ioloop_exit. rewrite Hex1, !filter_cons, !filter_nil.
    destruct (decide (io = io')); [congruence|]. destruct (decide (io <> io')); [|done].
    simpl. unfold ret. by rewrite <- Hex1, set_on_exit_same.
  - unfold Ioloop_exit. rewrite Hex1, !filter_cons, !filter_nil.
    destruct (decide (io = io)); [|done]. destruct (decide (io <> io)); [done|].
    simpl. unfold bind, queue_next_command. fold bc1'. by rewrite Hrun2.
  - rewrite Hres2. simpl. by rewrite <- Hres.
  - by rewrite Hex2.
Qed.

(** X11. A callback that returns zero stops the run without discarding
    the rest of the program: start_bridge returns zero after the callbacks
    before it and the callback itself, and a second start_bridge carries on
    with the callbacks queued after it, in order. *)
Theorem halted_run_resumes_on_restart cbs1 cb cbs2 r0 (w : World) fuel fuel' :
  kEventLoopTimerDone <> 0%Z ->
  zero_returned cbs1 w = false ->
  (cb (invoke_all cbs1 r0 w).2).1 = 0%Z ->
  exists bc0 bc1 bc2,
    author (AddExecute <$> (cbs1 ++ cb :: cbs2)) (BridgeCommands_new r0 w) = Ok tt bc0
    /\ start_bridge kEventLoopTimerDone (length cbs1 + 1 + fuel) bc0 = Ok 0%Z bc1
    /\ world bc1 = (cb (invoke_all cbs1 r0 w).2).2
    /\ start_bridge kEventLoopTimerDone (length cbs2 + 2 + fuel') bc1
       = Ok (invoke_all cbs2 0%Z (world bc1)).1 bc2
    /\ world bc2 = (invoke_all cbs2 0%Z (world bc1)).2.
Proof.
  intros Hk Hz Hcb0.
  set (cbs := cbs1 ++ cb :: cbs2).
  destruct (authored_flat (AddExecute <$> cbs) (BridgeCommandExecute <$> cbs) r0 w
              (step_objects_of_executes cbs))
    as (bc0 & Hau & Hs & Htop & Hos & Hrv & Hw & Hex).
  assert (Hlen : length (BridgeCommandExecute (World:=World) <$> cbs)
                 = length cbs1 + S (length cbs2)).
  { unfold cbs. rewrite length_fmap, length_app. done. }
  rewrite Hlen, seq_app in Htop. simpl in Htop.
  assert (Hat : forall i cb', cbs !! i = Some cb' ->
                  heap bc0 !! (S i) = Some (BridgeCommandExecute cb')).
  { intros i cb' Hc. apply Hos. by rewrite list_lookup_fmap, Hc. }
  destruct (run_prefix cbs1 (seq 1 (length cbs1)) _ bc0 0 [] (S fuel) 0%Z Hk Hs Htop)
    as (bc' & d' & Hrun & Hres & Hex' & Hs' & Ht' & Hh).
  { apply executes_at. intros i cb' Hc. apply Hat. unfold cbs.
    by rewrite lookup_app_l by (by eapply lookup_lt_Some). }
  { by rewrite Hw. }
  rewrite Hrv, Hw in Hres.
  assert (Hw' : world bc' = (invoke_all cbs1 r0 w).2) by (by rewrite <- Hres).
  assert (Hc : heap bc' !! (S (length cbs1)) = Some (BridgeCommandExecute cb)).
  { rewrite Hh by done. apply Hat. unfold cbs.
    rewrite lookup_app_r by done. by rewrite Nat.sub_diag. }
  set (bcw := set_clock (clock bc' + Z.max 0 d') bc').
  set (bcq := set_heap (<[0 := BridgeCommandCollection (seq (S (1 + length cbs1)) (length cbs2))]>
                          (heap bcw)) bcw).
  set (bc1 := printf (after_execute (cb (world bc')).1)
                (set_return_value (cb (world bc')).1
                   (set_world (cb (world bc')).2 (printf before_execute bcq)))).
  assert (Htick : timer_callback kEventLoopTimerDone bcw = Ok kEventLoopTimerDone bc1).
  { rewrite (Collection_advance _ 0 _ [] bcw Ht' Hs').
    replace (1 + length cbs1) with (S (length cbs1)) by done.
    rewrite (Execute_advance _ (S (length cbs1)) cb bcq)
      by (by simpl; rewrite list_lookup_insert_ne).
    change (world bcq) with (world bc'). fold bc1. by rewrite Hw', Hcb0. }
  assert (Hlt : 0 < length (heap bc')) by (by eapply lookup_lt_Some).
  destruct (run_root cbs2 (seq (S (1 + length cbs1)) (length cbs2)) bc1 fuel' 0%Z 0 Hk)
    as (bc2 & Hrun2 & Hres2 & Hex2).
  { done. }
  { simpl. by apply list_lookup_insert_eq. }
  { apply executes_at. intros i cb' Hi. simpl.
    rewrite list_lookup_insert_ne by done. rewrite Hh by done.
    apply Hat. unfold cbs. rewrite lookup_app_r by lia.
    replace (S (length cbs1 + i) - length cbs1) with (S i) by lia. done. }
  assert (Hr1 : m_return_value bc1 = 0%Z) by (simpl; by rewrite Hw', Hcb0).
  exists bc0, bc1, bc2. split; [done|]. split; [|split; [|split]].
  - unfold start_bridge, queue_next_command, bind, get_return_value. rewrite Hs. simpl.
    replace (length cbs1 + 1 + fuel) with (length cbs1 + S fuel) by lia.
    rewrite Hrun, (EventLoop_start_done _ _ _ d' bc' bc1 Htick). by rewrite Hr1.
  - simpl. by rewrite Hw'.
  - unfold start_bridge, queue_next_command, bind, get_return_value. simpl.
    rewrite Hs'. simpl. rewrite Hrun2. rewrite Hr1 in Hres2.
    change (world bc1) with (cb (world bc')).2 in Hres2. by rewrite <- Hres2.
  - rewrite Hr1 in Hres2. by rewrite <- Hres2.
Qed.

(** *** A repeat on the stack *)

Lemma int_wrap_small z : (- 2 ^ 31 <= z < 2 ^ 31)%Z -> int_wrap z = z.
Proof. intros H. unfold int_wrap. rewrite Z.mod_small; lia. Qed.

(** X12. A repeat that is itself on top of the stack (it has been
    started while still open) iterates: with a count of n and a body of
    callbacks none of which returns zero, the body runs n times over, each
    time in order, and then the repeat is popped, its counter left at
    minus one. *)
Theorem repeat_on_the_stack_runs_count_times (n : nat) cbs qs bc r rest d fuel d0 :
  kEventLoopTimerDone <> 0%Z -> d <> kEventLoopTimerDone ->
  m_command_stack bc = r :: rest ->
  heap bc !! r = Some (BridgeCommandRepeat qs d (Z.of_nat n)) ->
  (Z.of_nat n < 2 ^ 31)%Z ->
  Forall2 (fun c cb => heap bc !! c = Some (BridgeCommandExecute cb)) qs cbs ->
  zero_within n cbs (m_return_value bc) (world bc) = false ->
  exists bc',
    loop (n * (length cbs + 2) + 1 + fuel) d0 bc = loop fuel d bc'
    /\ (m_return_value bc', world bc') = invoke_times n cbs (m_return_value bc) (world bc)
    /\ m_command_stack bc' = rest
    /\ heap bc' !! r = Some (BridgeCommandRepeat qs d (-1))
    /\ on_exit bc' = on_exit bc.
Proof.
  intros Hk Hd. revert bc d0. induction n as [|n IH]; intros bc d0 Hs Hr Hn Hq Hz.
  - set (bc0 := set_clock (clock bc + Z.max 0 d0) bc).
    eexists. split; [|split; [|split; [|split]]]; cycle 1.
    5: { simpl. apply EventLoop_start_rearm; [|exact Hd].
         unfold timer_callback. cbn [m_command_stack set_clock]. rewrite Hs.
         by rewrite (Repeat_advance _ r qs d _ r rest (set_clock _ bc) Hr Hs). }
    + done.
    + done.
    + simpl. apply list_lookup_insert_eq. by eapply lookup_lt_Some.
    + done.
  - pose proof (lookup_lt_Some _ _ _ Hr) as Hlr.
    set (bc0 := set_clock (clock bc + Z.max 0 d0) bc).
    set (h1 := <[r := BridgeCommandRepeat qs d (Z.of_nat n)]> (heap bc)).
    set (bc1 := set_stack (length h1 :: r :: rest)
                  (set_heap (h1 ++ [BridgeCommandCollection qs]) bc0)).
    assert (Htick : timer_callback kEventLoopTimerDone bc0 = Ok d bc1).
    { unfold timer_callback, bc0. cbn [m_command_stack set_clock]. rewrite Hs.
      rewrite (Repeat_advance _ r qs d _ r rest (set_clock _ bc) Hr Hs).
      replace (Z.of_nat (S n) <=? 0)%Z with false by (symmetry; apply Z.leb_gt; lia).
      replace (Z.of_nat (S n) - 1)%Z with (Z.of_nat n) by lia.
      rewrite int_wrap_small by lia. done. }
    assert (Hlen1 : length h1 = length (heap bc)) by (unfold h1; by rewrite length_insert).
    assert (Hkeep : forall c cb, heap bc !! c = Some (BridgeCommandExecute cb) ->
              heap bc1 !! c = Some (BridgeCommandExecute cb)).
    { intros c cb Hc. simpl. rewrite lookup_app_l by (rewrite Hlen1; by eapply lookup_lt_Some).
      unfold h1. rewrite list_lookup_insert_ne; [done|]. intros ->. congruence. }
    cbn [zero_within invoke_times] in *. apply orb_false_iff in Hz as [Hz1 Hz2].
    destruct (run_callbacks kEventLoopTimerDone cbs qs bc1 (length h1) (r :: rest)
                (n * (length cbs + 2) + 1 + fuel) d Hk eq_refl)
      as (bc2 & Hres & Hex & Hh & Hrun).
    { simpl. by apply list_lookup_middle. }
    { eapply Forall2_impl; [exact Hq|]. simpl. intros c cb Hc. by apply (Hkeep c cb). }
    change (world bc1) with (world bc) in Hrun. rewrite Hz1 in Hrun.
    destruct Hrun as (Hrun & Hs2 & _).
    change (m_return_value bc1) with (m_return_value bc) in Hres.
    change (world bc1) with (world bc) in Hres.
    destruct (invoke_all cbs (m_return_value bc) (world bc)) as [r' w'] eqn:Einv.
    injection Hres as Hr2 Hw2.
    destruct (IH bc2 0%Z) as (bc' & Hloop & Hres' & Hs' & Hr' & Hex').
    + done.
    + rewrite Hh by lia. simpl. rewrite lookup_app_l by lia. unfold h1.
      by apply list_lookup_insert_eq.
    + lia.
    + eapply Forall2_impl; [exact Hq|]. simpl. intros c cb Hc.
      rewrite Hh; [by apply Hkeep|]. apply lookup_lt_Some in Hc. lia.
    + by rewrite Hr2, Hw2.
    + exists bc'. split; [|split; [|split; [done|split; [done|]]]].
      * replace (S n * (length cbs + 2) + 1 + fuel)
          with (S (length cbs + 1 + (n * (length cbs + 2) + 1 + fuel))) by lia.
        rewrite (EventLoop_start_rearm _ _ _ d0 bc _ _ Htick Hd). by rewrite Hrun.
      * by rewrite Hres', Hr2, Hw2.
      * by rewrite Hex', Hex.
Qed.

End Resume.

Open Scope string_scope.

(** ** The further properties at work on the scenarios *)

Lemma steps_are_queued_in_order_witness :
  (Forall2 (fun cl o => step_object cl = Some o) steps_scenario
     [BridgeCommandExecute (invoke "A" 1); BridgeCommandDelay 500; BridgeCommandWaitExit 5]
   /\ m_command_stack (BridgeCommands_new 0 ([] : list string)) = [0]
   /\ heap (BridgeCommands_new 0 ([] : list string)) !! 0 = Some (BridgeCommandCollection [])
   /\ is_frame (Some (BridgeCommandCollection (World:=list string) [])))
  /\ exists bc',
       author steps_scenario (BridgeCommands_new 0 []) = Ok tt bc'
       /\ m_command_stack bc' = [0]
       /\ heap bc' !! 0 = Some (BridgeCommandCollection [1; 2; 3])
       /\ (forall i o,
             [BridgeCommandExecute (invoke "A" 1); BridgeCommandDelay 500;
              BridgeCommandWaitExit 5] !! i = Some o ->
             heap bc' !! (1 + i) = Some o)
       /\ length (heap bc') = 1 + 3
       /\ (forall l, l < 1 -> l <> 0 ->
             heap bc' !! l = heap (BridgeCommands_new 0 ([] : list string)) !! l)
       /\ same_outcome (BridgeCommands_new 0 []) bc'.
Proof.
  assert (H : Forall2 (fun cl o => step_object cl = Some o) steps_scenario
     [BridgeCommandExecute (invoke "A" 1); BridgeCommandDelay 500; BridgeCommandWaitExit 5]).
  { repeat constructor. }
  split; [by repeat split|].
  exact (steps_are_queued_in_order steps_scenario _ (BridgeCommands_new 0 []) 0 []
           (BridgeCommandCollection []) H eq_refl eq_refl I).
Defined.

Lemma repeat_block_is_built_witness :
  (Forall2 (fun cl o => step_object cl = Some o)
     [AddExecute (invoke "B" 1); AddDelay 500]
     [BridgeCommandExecute (invoke "B" 1); BridgeCommandDelay 500]
   /\ m_command_stack (BridgeCommands_new 0 ([] : list string)) = [0]
   /\ heap (BridgeCommands_new 0 ([] : list string)) !! 0 = Some (BridgeCommandCollection [])
   /\ is_frame (Some (BridgeCommandCollection (World:=list string) [])))
  /\ exists bc',
       author (AddRepeatStart 1000 2 :: [AddExecute (invoke "B" 1); AddDelay 500]
                 ++ [AddRepeatEnd])%list
              (BridgeCommands_new 0 []) = Ok tt bc'
       /\ m_command_stack bc' = [0]
       /\ heap bc' !! 0 = Some (BridgeCommandCollection [1])
       /\ heap bc' !! 1 = Some (BridgeCommandRepeat [2; 3] 1000 2)
       /\ (forall i o,
             [BridgeCommandExecute (invoke "B" 1); BridgeCommandDelay 500] !! i = Some o ->
             heap bc' !! (2 + i) = Some o)
       /\ length (heap bc') = 2 + 2
       /\ (forall l, l < 1 -> l <> 0 ->
             heap bc' !! l = heap (BridgeCommands_new 0 ([] : list string)) !! l)
       /\ same_outcome (BridgeCommands_new 0 []) bc'.
Proof.
  assert (H : Forall2 (fun cl o => step_object cl = Some o)
     [AddExecute (invoke "B" 1); AddDelay 500]
     [BridgeCommandExecute (invoke "B" 1); BridgeCommandDelay 500]).
  { repeat constructor. }
  split; [by repeat split|].
  exact (repeat_block_is_built [AddExecute (invoke "B" 1); AddDelay 500] _ 1000 2
           (BridgeCommands_new 0 []) 0 [] (BridgeCommandCollection []) H eq_refl eq_refl I).
Defined.

Lemma flat_program_runs_in_order_witness :
  ((-1) <> 0)%Z
  /\ exists bc0 bc',
       author (AddExecute <$> [invoke "A" 1; invoke "B" 0; invoke "C" 1])
              (BridgeCommands_new 7 []) = Ok tt bc0
       /\ start_bridge (-1) (3 + 2 + 0) bc0 = Ok 0%Z bc'
       /\ world bc' = ["A"; "B"]
       /\ m_command_stack bc' = [0].
Proof.
  split; [lia|].
  apply (flat_program_runs_in_order (-1) [invoke "A" 1; invoke "B" 0; invoke "C" 1] 7 [] 0).
  lia.
Defined.


Lemma steps_are_never_changed_witness :
  (is_leaf (BridgeCommandExecute (invoke "A" 0))
   /\ heap (built halting_scenario) !! 1 = Some (BridgeCommandExecute (invoke "A" 0)))
  /\ after (happens (-1) [Starts 3; Calls (AddDelay 1); Exits 3 5; TimerFires]
              (built halting_scenario))
           (fun bc' => heap bc' !! 1 = Some (BridgeCommandExecute (invoke "A" 0))).
Proof.
  split; [by split|].
  apply (steps_are_never_changed (-1) 1 (BridgeCommandExecute (invoke "A" 0)));
    [exact I|reflexivity].
Defined.

Lemma run_registers_at_most_one_exit_callback_witness :
  start_bridge (-1) 1 (built wait_exit_scenario)
  = Ok 0%Z (mkBridgeCommands
              [BridgeCommandCollection [2]; BridgeCommandWaitExit 5;
               BridgeCommandExecute (invoke "C" 1)]
              [0] 0 [5] [] 0 [])
  /\ ([5] = on_exit (built wait_exit_scenario)
      \/ exists io, [5] = (on_exit (built wait_exit_scenario) ++ [io])%list)
  /\ (on_exit (built wait_exit_scenario) = [] -> length [5] <= 1).
Proof.
  assert (H : start_bridge (-1) 1 (built wait_exit_scenario)
              = Ok 0%Z (mkBridgeCommands
                          [BridgeCommandCollection [2]; BridgeCommandWaitExit 5;
                           BridgeCommandExecute (invoke "C" 1)]
                          [0] 0 [5] [] 0 [])).
  { vm_compute. reflexivity. }
  split; [exact H|].
  exact (run_registers_at_most_one_exit_callback (-1) 1 (built wait_exit_scenario) 0%Z _ H).
Defined.

Lemma built_program_never_goes_wrong_witness :
  (author (repeat_scenario 2) (BridgeCommands_new 0 []) = Ok tt (built (repeat_scenario 2))
   /\ length (m_command_stack (built (repeat_scenario 2))) = 1
   /\ Forall (@runs_within (list string) (ticks_left (built (repeat_scenario 2))))
        [Starts 20; TimerFires; Exits 20 5; Starts 20])
  /\ exists bc',
       happens (-1) [Starts 20; TimerFires; Exits 20 5; Starts 20]
         (built (repeat_scenario 2)) = Ok tt bc'
       /\ Forall (fun f => is_collection (heap bc' !! f)) (m_command_stack bc')
       /\ NoDup (m_command_stack bc').
Proof.
  assert (H1 : author (repeat_scenario 2) (BridgeCommands_new 0 [])
               = Ok tt (built (repeat_scenario 2))) by (vm_compute; reflexivity).
  assert (H2 : Forall (@runs_within (list string) (ticks_left (built (repeat_scenario 2))))
                 [Starts 20; TimerFires; Exits 20 5; Starts 20]).
  { apply Forall_cons. split; [vm_compute; lia|].
    apply Forall_cons. split; [exact I|].
    apply Forall_cons. split; [vm_compute; lia|].
    apply Forall_cons. split; [vm_compute; lia|]. apply Forall_nil_2. }
  split; [split; [exact H1|split; [reflexivity|exact H2]]|].
  exact (built_program_never_goes_wrong (-1) (repeat_scenario 2) 0 [] _ _ H1 eq_refl H2).
Defined.

Lemma wait_exit_suspends_and_resumes_witness :
  (((-1) <> 0)%Z /\ zero_returned [invoke "A" 1] ([] : list string) = false)
  /\ exists bc0 bc1 bc2,
       author ((AddExecute <$> [invoke "A" 1]) ++ AddWaitExit 5
                 :: (AddExecute <$> [invoke "C" 2]))%list
              (BridgeCommands_new 0 []) = Ok tt bc0
       /\ start_bridge (-1) (1 + 1 + 0) bc0 = Ok 1%Z bc1
       /\ world bc1 = ["A"]
       /\ on_exit bc1 = [5]
       /\ (forall io' n, io' <> 5 -> Ioloop_exit (-1) n io' bc1 = Ok tt bc1)
       /\ Ioloop_exit (-1) (1 + 2 + 0) 5 bc1 = Ok tt bc2
       /\ (m_return_value bc2, world bc2) = (2%Z, ["A"; "C"])
       /\ on_exit bc2 = [].
Proof.
  split; [split; [lia|reflexivity]|].
  apply (wait_exit_suspends_and_resumes (-1) [invoke "A" 1] 5 [invoke "C" 2] 0 [] 0 0);
    [lia|reflexivity].
Defined.

Lemma halted_run_resumes_on_restart_witness :
  (((-1) <> 0)%Z /\ zero_returned [invoke "A" 1] ([] : list string) = false
   /\ (invoke "B" 0 (invoke_all [invoke "A" 1] 5 []).2).1 = 0%Z)
  /\ exists bc0 bc1 bc2,
       author (AddExecute <$> ([invoke "A" 1] ++ invoke "B" 0 :: [invoke "C" 2])%list)
              (BridgeCommands_new 5 []) = Ok tt bc0
       /\ start_bridge (-1) (1 + 1 + 0) bc0 = Ok 0%Z bc1
       /\ world bc1 = ["A"; "B"]
       /\ start_bridge (-1) (1 + 2 + 0) bc1 = Ok (invoke_all [invoke "C" 2] 0 (world bc1)).1 bc2
       /\ world bc2 = (invoke_all [invoke "C" 2] 0 (world bc1)).2.
Proof.
  split; [split; [lia|split; reflexivity]|].
  apply (halted_run_resumes_on_restart (-1) [invoke "A" 1] (invoke "B" 0) [invoke "C" 2]
           5 [] 0 0); [lia|reflexivity|reflexivity].
Defined.

Lemma repeat_on_the_stack_runs_count_times_witness :
  (((-1) <> 0)%Z /\ (7 <> -1)%Z
   /\ m_command_stack (built open_repeat_scenario) = [1; 0]
   /\ heap (built open_repeat_scenario) !! 1 = Some (BridgeCommandRepeat [2] 7 (Z.of_nat 2))
   /\ (Z.of_nat 2 < 2 ^ 31)%Z
   /\ Forall2 (fun c cb => heap (built open_repeat_scenario) !! c
                           = Some (BridgeCommandExecute cb)) [2] [invoke "B" 1]
   /\ zero_within 2 [invoke "B" 1] (m_return_value (built open_repeat_scenario))
        (world (built open_repeat_scenario)) = false)
  /\ exists bc',
       EventLoop_start (-1) (timer_callback (-1)) (2 * (1 + 2) + 1 + 0) 0
         (built open_repeat_scenario)
       = EventLoop_start (-1) (timer_callback (-1)) 0 7 bc'
       /\ (m_return_value bc', world bc') = (1%Z, ["B"; "B"])
       /\ m_command_stack bc' = [0]
       /\ heap bc' !! 1 = Some (BridgeCommandRepeat [2] 7 (-1))
       /\ on_exit bc' = [].
Proof.
  assert (H : Forall2 (fun c cb => heap (built open_repeat_scenario) !! c
                           = Some (BridgeCommandExecute cb)) [2] [invoke "B" 1]).
  { repeat constructor. }
  split; [repeat split; (lia || exact H)|].
  apply (repeat_on_the_stack_runs_count_times (-1) 2 [invoke "B" 1] [2]
           (built open_repeat_scenario) 1 [0] 7 0 0);
    [lia|lia|reflexivity|reflexivity|lia|exact H|reflexivity].
Defined.
